(** * tmpemail: mail intake (email-service) and fan-out hub (api/websocket)

    A shallow embedding of the Go sources of the disposable-mail system:
    - [email-service/storage/storage.go]  (filesystem store, filename sanitising),
    - [email-service/client/api_client.go] (validation and store clients),
    - [email-service/main.go]              (SMTP session: RCPT, DATA, auth checks),
    - [api/handlers/internal_handler.go]   (the store endpoint, which publishes),
    - [api/websocket/hub.go]               (the hub event loop).

    Go strings are byte sequences and are modelled by [string] (one [ascii]
    per byte); [int], [int64] and [rune] values are modelled by [Z];
    effects (filesystem, network, DNS, clock, randomness) are threaded
    through an abstract world and recorded in a trace of events. *)

From Stdlib Require Import ZArith Ascii String List Bool Lia.
From stdpp Require Import base option list gmap strings.

#[local] Set Warnings "-clear-no-such-hyp".

Local Open Scope string_scope.
Local Open Scope list_scope.
Local Open Scope Z_scope.

(** ** Part I. The model *)

(** *** Go strings as bytes, and [range] over a string *)

Module GoString.

(** The numeric value of one byte of a Go string. *)
Definition byte_val (a : ascii) : Z := Z.of_N (N_of_ascii a).

Definition byte_of (b : Z) : ascii := ascii_of_N (Z.to_N b).

Fixpoint bytes (s : string) : list Z :=
  match s with
  | EmptyString => []
  | String a t => byte_val a :: bytes t
  end.

(** [len(s)] as a Go [int]. *)
Definition len (s : string) : Z := Z.of_nat (String.length s).

(** [unicode/utf8]: the replacement rune and the continuation-byte range. *)
Definition RuneError : Z := 0xFFFD.
Definition locb : Z := 0x80.
Definition hicb : Z := 0xBF.
Definition maskx : Z := 0x3F.
Definition mask2 : Z := 0x1F.
Definition mask3 : Z := 0x0F.
Definition mask4 : Z := 0x07.

(** The information [utf8.first] holds for a lead byte: ASCII, invalid, or
    the size of the sequence with the accepted range of its second byte. *)
Inductive lead : Type :=
| LeadAscii
| LeadInvalid
| LeadMulti (sz : nat) (lo hi : Z).

Definition first (b : Z) : lead :=
  if b <? 0x80 then LeadAscii
  else if b <? 0xC2 then LeadInvalid
  else if b <? 0xE0 then LeadMulti 2 locb hicb
  else if b =? 0xE0 then LeadMulti 3 0xA0 hicb
  else if b <? 0xED then LeadMulti 3 locb hicb
  else if b =? 0xED then LeadMulti 3 locb 0x9F
  else if b <? 0xF0 then LeadMulti 3 locb hicb
  else if b =? 0xF0 then LeadMulti 4 0x90 hicb
  else if b <? 0xF4 then LeadMulti 4 locb hicb
  else if b =? 0xF4 then LeadMulti 4 locb 0x8F
  else LeadInvalid.

Definition outside (lo hi b : Z) : bool := (b <? lo) || (hi <? b).

(** [utf8.DecodeRuneInString]: the first rune of [s] and its width in bytes;
    every malformed sequence decodes to [RuneError] of width 1. *)
Definition DecodeRune (s : list Z) : Z * nat :=
  match s with
  | [] => (RuneError, 0%nat)
  | s0 :: t =>
    match first s0 with
    | LeadAscii => (s0, 1%nat)
    | LeadInvalid => (RuneError, 1%nat)
    | LeadMulti sz lo hi =>
      if (length s <? sz)%nat then (RuneError, 1%nat) else
      match t with
      | [] => (RuneError, 1%nat)
      | s1 :: t1 =>
        if outside lo hi s1 then (RuneError, 1%nat)
        else if (sz <=? 2)%nat then
          (Z.lor (Z.shiftl (Z.land s0 mask2) 6) (Z.land s1 maskx), 2%nat)
        else
        match t1 with
        | [] => (RuneError, 1%nat)
        | s2 :: t2 =>
          if outside locb hicb s2 then (RuneError, 1%nat)
          else if (sz <=? 3)%nat then
            (Z.lor (Z.lor (Z.shiftl (Z.land s0 mask3) 12)
                          (Z.shiftl (Z.land s1 maskx) 6))
                   (Z.land s2 maskx), 3%nat)
          else
          match t2 with
          | [] => (RuneError, 1%nat)
          | s3 :: _ =>
            if outside locb hicb s3 then (RuneError, 1%nat)
            else
              (Z.lor (Z.lor (Z.lor (Z.shiftl (Z.land s0 mask4) 18)
                                   (Z.shiftl (Z.land s1 maskx) 12))
                            (Z.shiftl (Z.land s2 maskx) 6))
                     (Z.land s3 maskx), 4%nat)
          end
        end
      end
    end
  end.

(** [for _, ch := range s]: the runes of [s] in order.  [skip] counts the
    bytes of the current rune that are still to be stepped over. *)
Fixpoint range_runes (skip : nat) (s : list Z) : list Z :=
  match s with
  | [] => []
  | _ :: t =>
    match skip with
    | S k => range_runes k t
    | O => let '(ch, sz) := DecodeRune s in ch :: range_runes (sz - 1) t
    end
  end.

Definition runes (s : string) : list Z := range_runes 0 (bytes s).

(** [string(ch)] for a rune below [0x80]: the one-byte string. *)
Definition string_of_ascii_rune (ch : Z) : string := String (byte_of ch) EmptyString.

End GoString.

(** *** Go integers and the string functions the service uses *)

Module GoInt.

(** Two's-complement wrap-around of a signed 64-bit integer. *)
Definition wrap64 (z : Z) : Z := (z + 2 ^ 63) mod 2 ^ 64 - 2 ^ 63.

Definition add64 (a b : Z) : Z := wrap64 (a + b).
Definition mul64 (a b : Z) : Z := wrap64 (a * b).
Definition shl64 (a k : Z) : Z := wrap64 (Z.shiftl a k).


End GoInt.

Module GoStrings.

(** [strings.Index(s, c)] for a one-byte separator: the position of its
    first occurrence, or [-1]. *)
Fixpoint Index (s : string) (c : ascii) : Z :=
  match s with
  | EmptyString => -1
  | String a t =>
    if Ascii.eqb a c then 0
    else let i := Index t c in if i <? 0 then -1 else i + 1
  end.

Definition Contains (s : string) (c : ascii) : bool := 0 <=? Index s c.

(** The slice expression [s[lo:hi]] for [0 <= lo <= hi <= len(s)]. *)
Definition slice (s : string) (lo hi : Z) : string :=
  String.substring (Z.to_nat lo) (Z.to_nat (hi - lo)) s.

(** [strings.Split(s, sep)] for a one-byte separator. *)
Fixpoint Split (s : string) (sep : ascii) : list string :=
  match s with
  | EmptyString => [EmptyString]
  | String a t =>
    if Ascii.eqb a sep then EmptyString :: Split t sep
    else match Split t sep with
         | p :: ps => String a p :: ps
         | [] => [String a EmptyString]
         end
  end.

End GoStrings.

(** *** The data of the two services *)

(** [smtp.SMTPError]. *)
Record SMTPError : Type := { Code : Z; Message : string }.

(** The classes of reply codes: [5xx] permanent, [4xx] temporary. *)
Definition permanent (e : SMTPError) : Prop := 500 <= Code e < 600.
Definition temporary (e : SMTPError) : Prop := 400 <= Code e < 500.

(** [client.ValidationResponse]. *)
Record ValidationResponse : Type := {
  Valid : bool;
  Expired : bool;
  StorageUsed : Z;
  StorageQuota : Z
}.

(** [client.StoreEmailRequest] (the same struct is declared again in
    handlers/internal_handler.go). *)
Record StoreEmailRequest : Type := {
  To : string;
  From_ : string;
  Subject : string;
  BodyText : string;
  BodyHTML : string;
  RawEmail : string;
  FilePath : string;
  Timestamp : string;
  AttachmentPaths : list string;
  AttachmentNames : list string;
  AttachmentSizes : list Z
}.

(** [StoreEmailResponse]. *)
Record StoreEmailResponse : Type := {
  Success : bool;
  RespMessage : string;
  EmailID : string
}.

(** [config.Config] of the email service.  The three [Validate*] flags and
    [AuthPolicy] are read by main.go; their declaration is in a later
    revision of config.go than the one at hand, so they are fields here. *)
Record Config : Type := {
  StoragePath : string;
  APIServiceURL : string;
  MaxEmailSize : Z;
  ValidateSPF : bool;
  ValidateDKIM : bool;
  ValidateDMARC : bool;
  AuthPolicy : string
}.

(** [recipientInfo] and [Session] of main.go. *)
Record recipientInfo : Type := {
  address : string;
  storageUsed : Z;
  storageQuota : Z
}.

Record Session : Type := {
  from : string;
  recipients : list recipientInfo;
  clientIP : option string
}.

(** [AuthResult] of main.go; an [error] is kept as its message. *)
Record AuthResult : Type := {
  SPFResult : string;
  DKIMResult : string;
  DMARCResult : string;
  SPFError : option string;
  DKIMError : option string;
  DMARCError : option string
}.

(** [spf.Result] of blitiri.com.ar/go/spf: the seven named results, and any
    other value of the type. *)
Inductive SpfResult : Type :=
| SpfPass | SpfFail | SpfSoftFail | SpfNeutral | SpfNone
| SpfTempError | SpfPermError | SpfOther.

(** One [dkim.Verification]: the signing domain and its [Err]. *)
Record Verification : Type := { Domain : string; VErr : option string }.

(** What [dmarc.Lookup] returns: a record (with its policy), the error
    [dmarc.ErrNoPolicy], or another error. *)
Inductive DmarcOutcome : Type :=
| DmarcRecord (policy : string)
| DmarcNoPolicy
| DmarcError (msg : string).

(** [enmime.Part] and [enmime.Envelope], as far as [processEmail] reads them. *)
Record Part : Type := {
  FileName : string;
  ContentID : string;
  ContentType : string;
  Content : string
}.

Record Envelope : Type := {
  GetHeader : string -> string;
  Text : string;
  HTML : string;
  Attachments : list Part;
  Inlines : list Part;
  Errors : list string
}.

(** [models.Email] and [models.Attachment] of the API service. *)
Record Email : Type := {
  ID : string;
  ToAddress : string;
  FromAddress : string;
  ESubject : string;
  BodyPreview : string;
  EBodyText : string;
  EBodyHTML : string;
  EFilePath : string;
  ReceivedAt : string
}.

Record Attachment : Type := {
  AttID : string;
  AttEmailID : string;
  Filename : string;
  Filepath : string;
  Size : Z
}.

(** The ["new_email"] message handed to the hub. *)
Record HubMessage : Type := {
  msg_type : string;
  msg_id : string;
  msg_from : string;
  msg_subject : string;
  msg_preview : string;
  msg_received_at : string
}.

(** An HTTP exchange as the caller of [http.Client.Do] sees it. *)
Inductive HttpReply : Type :=
| HttpFailed                              (* Do returned an error *)
| HttpResponse (status : Z) (body : string).

(** What the database answers to [IsValidAddress]. *)
Inductive DbValidity : Type :=
| DbFailed
| DbAnswer (valid expired : bool).

(** The message body offered to the DATA command: the bytes the stream
    yields and whether it then ends with a read error instead of EOF. *)
Record Reader : Type := { rd_data : string; rd_fails : bool }.

(** An operation that can fail returns its value or the error message. *)
Inductive Result (A : Type) : Type :=
| Ok (a : A)
| Err (msg : string).
Arguments Ok {A} a.
Arguments Err {A} msg.

(** *** Effects: the world, the trace and the monad *)

(** Every call that leaves the process is recorded, in order. *)
Inductive Event : Type :=
| EvReadBody (n : nat)                         (* bytes taken from the DATA stream *)
| EvMkdirAll (path : string)
| EvWriteFile (path data : string)
| EvRename (oldpath newpath : string)
| EvRemove (path : string)
| EvHttpGet (url : string)
| EvHttpPost (url body : string)
| EvSleep (nanoseconds : Z)
| EvSpfCheck (ip sender : string)
| EvDkimVerify
| EvDmarcLookup (domain : string) (outcome : DmarcOutcome)
| EvDbIsValidAddress (addr : string)
| EvDbInsertEmail (e : Email)
| EvDbInsertAttachment (a : Attachment)
| EvBroadcast (addr : string) (msg : HubMessage).

(** The operating system, the libraries and the network, over a world [W]
    that each call may change. *)
Class Env (W : Type) : Type := {
  (* os, path/filepath *)
  os_MkdirAll : string -> W -> W * bool;
  os_WriteFile : string -> string -> W -> W * bool;
  os_Rename : string -> string -> W -> W * bool;
  os_Remove : string -> W -> W;
  filepath_Join : string -> string -> string;
  filepath_Base : string -> string;
  (* crypto/rand, time, crypto/sha256, fmt, strings, oklog/ulid *)
  rand_Int : Z -> W -> W * option Z;
  time_Now : string -> W -> W * string;
  sha256_hex : string -> string;
  fmt_int : Z -> string;
  strings_TrimSpace : string -> string;
  ulid_New : W -> W * string;
  (* encoding/json *)
  json_decode_validation : string -> option ValidationResponse;
  json_Marshal_request : StoreEmailRequest -> option string;
  json_decode_request : string -> option StoreEmailRequest;
  json_encode_response : StoreEmailResponse -> string;
  json_decode_response : string -> option StoreEmailResponse;
  (* net/http *)
  http_NewRequest_ok : string -> bool;
  http_Do_get : string -> W -> W * HttpReply;
  net_request_arrives : string -> W -> W * bool;
  net_reply_arrives : string -> W -> W * bool;
  (* go-chi: the router of api/main.go *)
  chi_route_store : string -> option string;
  chi_route_miss : string -> Z * string;
  (* enmime, spf, dkim, dmarc *)
  enmime_ReadEnvelope : string -> option Envelope;
  spf_CheckHostWithSender : string -> string -> string -> W -> W * (SpfResult * option string);
  dkim_Verify : string -> W -> W * (list Verification + string);
  dmarc_Lookup : string -> W -> W * DmarcOutcome;
  (* the database of the API service *)
  db_IsValidAddress : string -> W -> W * DbValidity;
  db_InsertEmail : Email -> W -> W * bool;
  db_InsertAttachment : Attachment -> W -> W * bool
}.

(** A computation: from a world to the next world, the events and a value. *)
Definition M (W A : Type) : Type := W -> W * list Event * A.

Definition ret {W A : Type} (a : A) : M W A := fun w => (w, [], a).

Definition bind {W A B : Type} (m : M W A) (k : A -> M W B) : M W B :=
  fun w =>
    let '(w1, t1, a) := m w in
    let '(w2, t2, b) := k a w1 in
    (w2, t1 ++ t2, b).

(** A call of an operation of the environment, with the event it leaves. *)
Definition call {W A : Type} (ev : Event) (op : W -> W * A) : M W A :=
  fun w => let '(w1, a) := op w in (w1, [ev], a).

(** A call that leaves no event (clock, randomness). *)
Definition ask {W A : Type} (op : W -> W * A) : M W A :=
  fun w => let '(w1, a) := op w in (w1, [], a).

(** A call whose event records what came back. *)
Definition call_out {W A : Type} (ev : A -> Event) (op : W -> W * A) : M W A :=
  fun w => let '(w1, a) := op w in (w1, [ev a], a).

Definition emit {W : Type} (ev : Event) : M W unit := fun w => (w, [ev], tt).

Declare Scope go_scope.
Delimit Scope go_scope with go.
Notation "'do' x <~ m ; k" := (bind m (fun x => k))
  (at level 10, x name, m at level 100, k at level 200) : go_scope.
Notation "'do' ' p <~ m ; k" := (bind m (fun x => match x with p => k end))
  (at level 10, p pattern, m at level 100, k at level 200) : go_scope.
Notation "m ;;; k" := (bind m (fun _ => k))
  (at level 100, k at level 200, right associativity) : go_scope.
Local Open Scope go_scope.

(** The outcome of a run. *)
Definition world_of {W A : Type} (r : W * list Event * A) : W := r.1.1.
Definition trace_of {W A : Type} (r : W * list Event * A) : list Event := r.1.2.
Definition value_of {W A : Type} (r : W * list Event * A) : A := r.2.

(** Every event of every run of [m] satisfies [P]. *)
Definition emits_only {W A : Type} (P : Event -> Prop) (m : M W A) : Prop :=
  forall w, Forall P (trace_of (m w)).

(** Reading a trace: the pauses and the store requests in it. *)
Definition sleeps (tr : list Event) : list Z :=
  flat_map (fun ev => match ev with EvSleep d => [d] | _ => [] end) tr.

Definition posts (tr : list Event) : list string :=
  flat_map (fun ev => match ev with EvHttpPost url _ => [url] | _ => [] end) tr.

(** An event other than a pause or a store request. *)
Definition local_event (ev : Event) : Prop :=
  match ev with
  | EvSleep _ | EvHttpPost _ _ => False
  | _ => True
  end.

(** *** email-service/storage/storage.go *)

Module Storage.
Import GoString.

(** The condition of the [if] in [sanitizeFilename], on a rune. *)
Definition safe_rune (ch : Z) : bool :=
  ((byte_val "a" <=? ch) && (ch <=? byte_val "z"))
  || ((byte_val "A" <=? ch) && (ch <=? byte_val "Z"))
  || ((byte_val "0" <=? ch) && (ch <=? byte_val "9"))
  || (ch =? byte_val ".") || (ch =? byte_val "-") || (ch =? byte_val "_").

(** The loop of [sanitizeFilename] over the bytes of the name; the
    accumulator [safe] is the result being appended to. *)
Fixpoint sanitize_loop (skip : nat) (s : list Z) : string :=
  match s with
  | [] => ""
  | _ :: t =>
    match skip with
    | S k => sanitize_loop k t
    | O =>
      let '(ch, sz) := DecodeRune s in
      (if safe_rune ch then string_of_ascii_rune ch else "_")
        +:+ sanitize_loop (sz - 1) t
    end
  end.

Definition sanitizeFilename (filename : string) : string :=
  sanitize_loop 0 (bytes filename).

(** The spec's wording of the same function: every character (rune) of the
    name is kept when it is an ASCII letter, digit, [.], [-] or [_], and is
    replaced by [_] otherwise. *)
Definition is_ascii_alnum (ch : Z) : bool :=
  ((97 <=? ch) && (ch <=? 122)) || ((65 <=? ch) && (ch <=? 90))
  || ((48 <=? ch) && (ch <=? 57)).

Definition kept_char (ch : Z) : bool :=
  is_ascii_alnum ch || (ch =? 46) || (ch =? 45) || (ch =? 95).

Fixpoint string_of_runes (l : list Z) : string :=
  match l with
  | [] => ""
  | ch :: t => String (byte_of ch) (string_of_runes t)
  end.

Definition sanitize_spec (name : string) : string :=
  string_of_runes (map (fun ch => if kept_char ch then ch else 95) (runes name)).

Section StorageIO.
Context {W : Type} `{Env W}.

(** [generateFilename]: SHA256 of timestamp, address and a random number. *)
Definition generateFilename (address : string) : M W (Result string) :=
  let minNum := 1000 in
  let maxNum := 999999 in
  let numRange := maxNum - minNum + 1 in
  do randomNum <~ ask (rand_Int numRange);
  match randomNum with
  | None => ret (Err "rand.Int")
  | Some n =>
    let randomValue := GoInt.add64 minNum n in
    do timestamp <~ ask (time_Now "20060102150405.000000");
    let hashInput := timestamp +:+ address +:+ fmt_int randomValue in
    let hashStr := sha256_hex hashInput in
    ret (Ok (hashStr +:+ ".eml"))
  end.

(** The temporary write followed by the rename, shared by both saves. *)
Definition writeThenRename (filePath data : string) (what : string) : M W (Result string) :=
  let tempPath := filePath +:+ ".tmp" in
  do written <~ call (EvWriteFile tempPath data) (os_WriteFile tempPath data);
  if negb written then ret (Err ("failed to write " +:+ what)) else
  do renamed <~ call (EvRename tempPath filePath) (os_Rename tempPath filePath);
  if negb renamed then
    call (EvRemove tempPath) (fun w => (os_Remove tempPath w, tt)) ;;;
    ret (Err ("failed to rename " +:+ what))
  else ret (Ok filePath).

(** [Storage.SaveEmail]. *)
Definition SaveEmail (basePath toAddress rawEmail : string) : M W (Result string) :=
  do made <~ call (EvMkdirAll basePath) (os_MkdirAll basePath);
  if negb made then ret (Err "failed to create storage directory") else
  do name <~ generateFilename toAddress;
  match name with
  | Err e => ret (Err ("failed to generate filename: " +:+ e))
  | Ok filename =>
    let filePath := filepath_Join basePath filename in
    writeThenRename filePath rawEmail "file"
  end.

(** [Storage.SaveAttachment]. *)
Definition SaveAttachment (basePath emailFilename attachmentName data : string)
    : M W (Result string) :=
  do made <~ call (EvMkdirAll basePath) (os_MkdirAll basePath);
  if negb made then ret (Err "failed to create storage directory") else
  let n := len emailFilename in
  let baseEmailName :=
    if (4 <? n) && String.eqb (GoStrings.slice emailFilename (n - 4) n) ".eml"
    then GoStrings.slice emailFilename 0 (n - 4)
    else emailFilename in
  let attachmentFilename := baseEmailName +:+ "_" +:+ sanitizeFilename attachmentName in
  let filePath := filepath_Join basePath attachmentFilename in
  writeThenRename filePath data "attachment".

End StorageIO.

End Storage.

(** *** api/handlers/internal_handler.go: the store endpoint *)

Module Api.
Import GoString.

Section Handler.
Context {W : Type} `{Env W}.

(** [models.NewEmail]: a fresh ULID and the current time. *)
Definition NewEmail (toAddress fromAddress subject bodyPreview bodyText bodyHTML filePath : string)
    : M W Email :=
  do now <~ ask (time_Now "2006-01-02T15:04:05Z07:00");
  do id <~ ask ulid_New;
  ret {| ID := id; ToAddress := toAddress; FromAddress := fromAddress;
         ESubject := subject; BodyPreview := bodyPreview; EBodyText := bodyText;
         EBodyHTML := bodyHTML; EFilePath := filePath; ReceivedAt := now |}.

(** [models.NewAttachment]. *)
Definition NewAttachment (emailID filename filepath : string) (size : Z) : M W Attachment :=
  do id <~ ask ulid_New;
  ret {| AttID := id; AttEmailID := emailID; Filename := filename;
         Filepath := filepath; Size := size |}.

(** The [for i, path := range req.AttachmentPaths] loop; an insert that
    fails is logged and the loop goes on. *)
Fixpoint insertAttachments (emailID : string) (names : list string) (sizes : list Z)
    (i : nat) (paths : list string) : M W unit :=
  match paths with
  | [] => ret tt
  | path :: rest =>
    let filename := match names !! i with Some n => n | None => "" end in
    let size := match sizes !! i with Some z => z | None => 0 end in
    do att <~ NewAttachment emailID filename path size;
    do _ <~ call (EvDbInsertAttachment att) (db_InsertAttachment att);
    insertAttachments emailID names sizes (S i) rest
  end.

Definition failure (status : Z) (msg : string) : M W (Z * StoreEmailResponse) :=
  ret (status, {| Success := false; RespMessage := msg; EmailID := "" |}).

(** [InternalHandler.StoreEmail]: the status code and the JSON response.
    The hub is told of the new email only after the insert succeeded. *)
Definition StoreEmail (address body : string) : M W (Z * StoreEmailResponse) :=
  if String.eqb address "" then failure 400 "Missing address parameter" else
  do validity <~ call (EvDbIsValidAddress address) (db_IsValidAddress address);
  match validity with
  | DbFailed => failure 500 "Failed to validate address"
  | DbAnswer valid expired =>
    if negb valid then failure 404 "Email address does not exist"
    else if expired then failure 410 "Email address has expired"
    else
    match json_decode_request body with
    | None => failure 400 "Invalid request body"
    | Some req =>
      let preview :=
        if 200 <? len (BodyText req)
        then GoStrings.slice (BodyText req) 0 200 +:+ "..."
        else BodyText req in
      do email <~ NewEmail address (From_ req) (Subject req) preview
                           (BodyText req) (BodyHTML req) (FilePath req);
      do inserted <~ call (EvDbInsertEmail email) (db_InsertEmail email);
      if negb inserted then failure 500 "Failed to store email" else
      insertAttachments (ID email) (AttachmentNames req) (AttachmentSizes req)
                        0%nat (AttachmentPaths req) ;;;
      emit (EvBroadcast address
              {| msg_type := "new_email"; msg_id := ID email;
                 msg_from := FromAddress email; msg_subject := ESubject email;
                 msg_preview := BodyPreview email;
                 msg_received_at := ReceivedAt email |}) ;;;
      ret (200, {| Success := true; RespMessage := "Email stored successfully";
                   EmailID := ID email |})
    end
  end.

End Handler.

End Api.

(** *** email-service/client/api_client.go *)

Module Client.
Import Storage.

Section APIClient.
Context {W : Type} `{Env W}.

(** [APIClient.ValidateAddress]. *)
Definition ValidateAddress (baseURL address : string) : M W (Result ValidationResponse) :=
  let url := baseURL +:+ "/internal/v1/email/" +:+ address +:+ "/" in
  if negb (http_NewRequest_ok url) then ret (Err "failed to create request") else
  do reply <~ call (EvHttpGet url) (http_Do_get url);
  match reply with
  | HttpFailed => ret (Err "failed to send request")
  | HttpResponse status body =>
    if negb (status =? 200) then ret (Err "validation request failed")
    else match json_decode_validation body with
         | None => ret (Err "failed to decode response")
         | Some validation => ret (Ok validation)
         end
  end.

(** [http.Client.Do] for the store request, together with the server that
    answers it.  api/main.go routes the request:
    [r.Route("/internal/v1", ...)] with
    [r.Post("/email/{address}/store", internalHandler.StoreEmail)], the only
    POST route of the router.  [chi_route_store url] is what chi makes of
    the path of [url]: [Some a] when that route matches, [a] being the
    value of [chi.URLParam(r, "address")] that the handler reads, and
    [None] when it does not match, in which case the router answers by
    itself with the status and body [chi_route_miss url] and no handler
    runs.  The address in the path need not be the address the client put
    into the URL: the path ends at a [?] or [#] and [{address}] stops at a
    [/].  The network may lose the request or the reply. *)
Definition http_Do_post_store (url body : string) : M W HttpReply :=
  emit (EvHttpPost url body) ;;;
  do arrives <~ ask (net_request_arrives url);
  if negb arrives then ret HttpFailed else
  do '(status, answer) <~
    match chi_route_store url with
    | Some address =>
      do '(status, resp) <~ Api.StoreEmail address body;
      ret (status, json_encode_response resp)
    | None => ret (chi_route_miss url)
    end;
  do back <~ ask (net_reply_arrives url);
  ret (if back then HttpResponse status answer else HttpFailed).

(** [APIClient.doStoreEmail]: a single store request. *)
Definition doStoreEmail (baseURL address : string) (req : StoreEmailRequest)
    : M W (Result StoreEmailResponse) :=
  let url := baseURL +:+ "/internal/v1/email/" +:+ address +:+ "/store" in
  match json_Marshal_request req with
  | None => ret (Err "failed to marshal request")
  | Some jsonData =>
    if negb (http_NewRequest_ok url) then ret (Err "failed to create request") else
    do reply <~ http_Do_post_store url jsonData;
    match reply with
    | HttpFailed => ret (Err "failed to send request")
    | HttpResponse status body =>
      if negb (status =? 200) then ret (Err "store request failed")
      else match json_decode_response body with
           | None => ret (Err "failed to decode response")
           | Some storeResp =>
             if negb (Success storeResp)
             then ret (Err ("store failed: " +:+ RespMessage storeResp))
             else ret (Ok storeResp)
           end
    end
  end.

Definition maxRetries : Z := 3.

(** [time.Second], in nanoseconds. *)
Definition Second : Z := 1000000000.

(** [time.Duration(1<<uint(attempt-1)) * time.Second]. *)
Definition backoff (attempt : Z) : Z :=
  GoInt.mul64 (GoInt.shl64 1 (attempt - 1)) Second.

(** The body of [for attempt := range maxRetries], for the attempts that
    are left. *)
Fixpoint storeAttempts (left : nat) (attempt : Z) (lastErr : string)
    (baseURL address : string) (req : StoreEmailRequest)
    : M W (Result StoreEmailResponse) :=
  match left with
  | O => ret (Err ("failed after 3 attempts: " +:+ lastErr))
  | S left' =>
    (if 0 <? attempt then emit (EvSleep (backoff attempt)) else ret tt) ;;;
    do r <~ doStoreEmail baseURL address req;
    match r with
    | Ok resp => ret (Ok resp)
    | Err e => storeAttempts left' (attempt + 1) e baseURL address req
    end
  end.

(** [APIClient.StoreEmail]. *)
Definition StoreEmail (baseURL address : string) (req : StoreEmailRequest)
    : M W (Result StoreEmailResponse) :=
  storeAttempts (Z.to_nat maxRetries) 0 "" baseURL address req.

End APIClient.

End Client.

(** *** email-service/main.go: the SMTP session *)

Module Smtp.
Import GoString GoStrings Storage.

(** [io.ReadAll(io.LimitReader(r, n))]: the bytes read and whether the read
    failed.  A limited reader reports EOF once [n] bytes have been taken
    (at once when [n <= 0]) without asking the stream again, so an error of
    the stream is seen only when the stream ends before the limit. *)
Definition readAllLimited (r : Reader) (n : Z) : string * bool :=
  if n <=? 0 then (EmptyString, false)
  else if len (rd_data r) <? n then (rd_data r, rd_fails r)
  else (slice (rd_data r) 0 n, false).

Definition smtpError (code : Z) (msg : string) : option SMTPError :=
  Some {| Code := code; Message := msg |}.

(** What the first half of [Data] hands to the per-recipient loop. *)
Inductive Received : Type :=
| Rejected (e : SMTPError)
| Accepted (rawEmail : string).

(** The strings and counters [processEmail] collects for the attachments. *)
Record Saved : Type := {
  attachmentPaths : list string;
  attachmentNames : list string;
  attachmentSizes : list Z
}.

Definition emptyEnvelope : Envelope :=
  {| GetHeader := fun _ => EmptyString; Text := ""; HTML := "";
     Attachments := []; Inlines := []; Errors := [] |}.

Definition spfResultToString (result : SpfResult) : string :=
  match result with
  | SpfPass => "pass"
  | SpfFail => "fail"
  | SpfSoftFail => "softfail"
  | SpfNeutral => "neutral"
  | SpfNone => "none"
  | SpfTempError => "temperror"
  | SpfPermError => "permerror"
  | SpfOther => "unknown"
  end.

Definition set_SPF (r : AuthResult) (v : string) (e : option string) : AuthResult :=
  {| SPFResult := v; DKIMResult := DKIMResult r; DMARCResult := DMARCResult r;
     SPFError := e; DKIMError := DKIMError r; DMARCError := DMARCError r |}.

Definition set_DKIM (r : AuthResult) (v : string) (e : option string) : AuthResult :=
  {| SPFResult := SPFResult r; DKIMResult := v; DMARCResult := DMARCResult r;
     SPFError := SPFError r; DKIMError := e; DMARCError := DMARCError r |}.

Definition set_DMARC (r : AuthResult) (v : string) (e : option string) : AuthResult :=
  {| SPFResult := SPFResult r; DKIMResult := DKIMResult r; DMARCResult := v;
     SPFError := SPFError r; DKIMError := DKIMError r; DMARCError := e |}.

(** The quota test of the loop in [Data]; the sum is an [int64] sum. *)
Definition overQuota (rcpt : recipientInfo) (emailSize : Z) : bool :=
  (0 <? storageQuota rcpt)
  && (storageQuota rcpt <? GoInt.add64 (storageUsed rcpt) emailSize).

(** [Session.shouldRejectEmail]. *)
Definition shouldRejectEmail (cfg : Config) (authResult : AuthResult) : bool :=
  if negb (String.eqb (AuthPolicy cfg) "reject") then false
  else if ValidateSPF cfg
          && (String.eqb (SPFResult authResult) "fail"
              || String.eqb (SPFResult authResult) "permerror") then true
  else if ValidateDKIM cfg && String.eqb (DKIMResult authResult) "fail" then true
  else if ValidateDMARC cfg && String.eqb (DMARCResult authResult) "fail" then true
  else false.



Section SessionOps.
Context {W : Type} `{Env W}.
Variable cfg : Config.

(** [extractEmailAddress]. *)
Definition extractEmailAddress (address : string) : string :=
  let address := strings_TrimSpace address in
  let address :=
    if Contains address "<" && Contains address ">" then
      let start := Index address "<" in
      let end_ := Index address ">" in
      if start <? end_ then slice address (start + 1) end_ else address
    else address in
  strings_TrimSpace address.

(** [extractDomain]. *)
Definition extractDomain (email : string) : string :=
  match Split email "@" with
  | [_; domain] => domain
  | _ => EmptyString
  end.


(** [Session.Reset]. *)
Definition Reset (s : Session) : Session :=
  {| from := ""; recipients := []; clientIP := clientIP s |}.

(** [Session.Rcpt]: the session afterwards and the error returned. *)
Definition Rcpt (to_ : string) (s : Session) : M W (Session * option SMTPError) :=
  let address := extractEmailAddress to_ in
  do checked <~ Client.ValidateAddress (APIServiceURL cfg) address;
  match checked with
  | Err _ => ret (s, smtpError 451 "Temporary failure validating address")
  | Ok validation =>
    if negb (Valid validation)
    then ret (s, smtpError 550 "Recipient address rejected: User unknown")
    else if Expired validation
    then ret (s, smtpError 550 "Recipient address rejected: Address expired")
    else
      ret ({| from := from s;
              recipients := recipients s ++
                [{| address := address;
                    storageUsed := StorageUsed validation;
                    storageQuota := StorageQuota validation |}];
              clientIP := clientIP s |}, None)
  end.

(** The SPF block of [validateEmailAuth]. *)
Definition spfPhase (s : Session) (senderDomain : string) (result : AuthResult)
    : M W AuthResult :=
  match clientIP s with
  | Some ip =>
    if ValidateSPF cfg && negb (String.eqb senderDomain "") then
      do '(spfResult, err) <~ call (EvSpfCheck ip (from s))
                                   (spf_CheckHostWithSender ip "localhost" (from s));
      match err with
      | Some e => ret (set_SPF result "temperror" (Some e))
      | None => ret (set_SPF result (spfResultToString spfResult) None)
      end
    else ret result
  | None => ret result
  end.

(** The DKIM block: [pass] when every signature verifies, [fail] when one
    does not, [none] without signatures. *)
Definition dkimPhase (rawEmail : string) (result : AuthResult) : M W AuthResult :=
  if ValidateDKIM cfg then
    do verified <~ call EvDkimVerify (dkim_Verify rawEmail);
    match verified with
    | inr e => ret (set_DKIM result "temperror" (Some e))
    | inl [] => ret (set_DKIM result "none" (DKIMError result))
    | inl verifications =>
      let allPassed := forallb (fun v => match VErr v with None => true | Some _ => false end)
                               verifications in
      ret (set_DKIM result (if allPassed then "pass" else "fail") (DKIMError result))
    end
  else ret result.

(** The DMARC block. *)
Definition dmarcPhase (senderDomain : string) (result : AuthResult) : M W AuthResult :=
  if ValidateDMARC cfg && negb (String.eqb senderDomain "") then
    do looked <~ call_out (EvDmarcLookup senderDomain) (dmarc_Lookup senderDomain);
    match looked with
    | DmarcNoPolicy => ret (set_DMARC result "none" (DMARCError result))
    | DmarcError e => ret (set_DMARC result "temperror" (Some e))
    | DmarcRecord _ =>
      let spfAligned := String.eqb (SPFResult result) "pass" in
      let dkimAligned := String.eqb (DKIMResult result) "pass" in
      ret (set_DMARC result (if spfAligned || dkimAligned then "pass" else "fail")
                     (DMARCError result))
    end
  else ret result.

(** [Session.validateEmailAuth]. *)
Definition validateEmailAuth (s : Session) (rawEmail : string) : M W AuthResult :=
  let result := {| SPFResult := "none"; DKIMResult := "none"; DMARCResult := "none";
                   SPFError := None; DKIMError := None; DMARCError := None |} in
  let senderDomain := extractDomain (from s) in
  do result <~ spfPhase s senderDomain result;
  do result <~ dkimPhase rawEmail result;
  dmarcPhase senderDomain result.

(** The two attachment loops of [processEmail]; [defaultName] is the name
    given to a part without a file name.  A failed save is skipped. *)
Fixpoint saveParts (emailFilename : string) (defaultName : Part -> string)
    (parts : list Part) (acc : Saved) : M W Saved :=
  match parts with
  | [] => ret acc
  | att :: rest =>
    let filename := if String.eqb (FileName att) "" then defaultName att
                    else FileName att in
    do saved <~ SaveAttachment (StoragePath cfg) emailFilename filename (Content att);
    match saved with
    | Err _ => saveParts emailFilename defaultName rest acc
    | Ok attPath =>
      saveParts emailFilename defaultName rest
        {| attachmentPaths := attachmentPaths acc ++ [attPath];
           attachmentNames := attachmentNames acc ++ [filename];
           attachmentSizes := attachmentSizes acc ++ [len (Content att)] |}
    end
  end.

(** [Session.processEmail]: the error it returns, if any. *)
Definition processEmail (s : Session) (toAddress rawEmail : string) : M W (option string) :=
  do stored <~ SaveEmail (StoragePath cfg) toAddress rawEmail;
  match stored with
  | Err e => ret (Some ("failed to save email: " +:+ e))
  | Ok filePath =>
    let env := match enmime_ReadEnvelope rawEmail with
               | Some env => env
               | None => emptyEnvelope
               end in
    let subject := GetHeader env "Subject" in
    let fromHeader := if String.eqb (GetHeader env "From") "" then from s
                      else GetHeader env "From" in
    let emailFilename := filepath_Base filePath in
    do atts <~ saveParts emailFilename (fun _ => "unnamed") (Attachments env)
                 {| attachmentPaths := []; attachmentNames := []; attachmentSizes := [] |};
    do atts <~ saveParts emailFilename (fun att => "inline_" +:+ ContentID att)
                 (Inlines env) atts;
    do now <~ ask (time_Now "2006-01-02T15:04:05Z07:00");
    let storeReq :=
      {| To := toAddress; From_ := fromHeader; Subject := subject;
         BodyText := Text env; BodyHTML := HTML env; RawEmail := rawEmail;
         FilePath := filePath; Timestamp := now;
         AttachmentPaths := attachmentPaths atts;
         AttachmentNames := attachmentNames atts;
         AttachmentSizes := attachmentSizes atts |} in
    do _ <~ Client.StoreEmail (APIServiceURL cfg) toAddress storeReq;
    ret None
  end.

(** The body of [for _, rcpt := range s.recipients]: a recipient over its
    quota is skipped by [continue]; an error of [processEmail] is logged. *)
Definition deliverOne (s : Session) (rawEmail : string) (rcpt : recipientInfo) : M W unit :=
  if overQuota rcpt (len rawEmail) then ret tt
  else do _ <~ processEmail s (address rcpt) rawEmail; ret tt.

Fixpoint deliverAll (s : Session) (rawEmail : string) (rcpts : list recipientInfo)
    : M W unit :=
  match rcpts with
  | [] => ret tt
  | rcpt :: rest => deliverOne s rawEmail rcpt ;;; deliverAll s rawEmail rest
  end.

(** [Data] up to the loop: the recipient check, the limited read, the size
    check and the authentication checks. *)
Definition receive (s : Session) (r : Reader) : M W Received :=
  match recipients s with
  | [] => ret (Rejected {| Code := 554; Message := "No valid recipients" |})
  | _ :: _ =>
    let '(rawEmail, failed) := readAllLimited r (MaxEmailSize cfg) in
    emit (EvReadBody (String.length rawEmail)) ;;;
    if failed
    then ret (Rejected {| Code := 451; Message := "Failed to read email data" |})
    else if MaxEmailSize cfg <=? len rawEmail
    then ret (Rejected {| Code := 552; Message := "Email exceeds maximum size (20MB)" |})
    else if ValidateSPF cfg || ValidateDKIM cfg || ValidateDMARC cfg then
      do authResult <~ validateEmailAuth s rawEmail;
      if shouldRejectEmail cfg authResult
      then ret (Rejected {| Code := 550;
                            Message := "Email rejected: authentication failed (SPF/DKIM/DMARC)" |})
      else ret (Accepted rawEmail)
    else ret (Accepted rawEmail)
  end.

(** [Session.Data]. *)
Definition Data (s : Session) (r : Reader) : M W (option SMTPError) :=
  do received <~ receive s r;
  match received with
  | Rejected e => ret (Some e)
  | Accepted rawEmail => deliverAll s rawEmail (recipients s) ;;; ret None
  end.

End SessionOps.

End Smtp.

(** *** The quota rule as the specification words it

    These two definitions follow the words of the specification, not the
    source: they are what the loop of [Data] is compared with. *)

Module QuotaReading.
Import GoString.




End QuotaReading.

(** *** Concrete worlds and sessions to run the model on *)

Module Scenario.

Definition okValidation : ValidationResponse :=
  {| Valid := true; Expired := false; StorageUsed := 0; StorageQuota := 0 |}.

Definition blankRequest : StoreEmailRequest :=
  {| To := ""; From_ := ""; Subject := ""; BodyText := ""; BodyHTML := "";
     RawEmail := ""; FilePath := ""; Timestamp := "";
     AttachmentPaths := []; AttachmentNames := []; AttachmentSizes := [] |}.

(** The routing of the worlds below: a URL that ends in
    [/internal/v1/email/<a>/store], with [<a>] not empty and free of [/],
    [?] and [#], is routed to the store handler with the address [<a>];
    any other URL is not routed. *)
Definition plainRoute (url : string) : option string :=
  match String.index 0 "/internal/v1/email/" url with
  | None => None
  | Some i =>
    let rest := String.substring (i + 19) (String.length url - (i + 19)) url in
    let n := String.length rest in
    let a := String.substring 0 (n - 6) rest in
    if (6 <? n)%nat && String.eqb (String.substring (n - 6) 6 rest) "/store"
       && negb (GoStrings.Contains a "/") && negb (GoStrings.Contains a "?")
       && negb (GoStrings.Contains a "#")
    then Some a else None
  end.

(** A world without state: the filesystem and the database always succeed,
    the network is up or down as [net_up] says, a message has no MIME
    structure and no signature, and SPF and DMARC answer [spf] and [dmarc]. *)
Definition plainEnv (net_up : bool) (spf : SpfResult) (dmarc : DmarcOutcome) : Env unit :=
  {| os_MkdirAll := fun _ w => (w, true);
     os_WriteFile := fun _ _ w => (w, true);
     os_Rename := fun _ _ w => (w, true);
     os_Remove := fun _ w => w;
     filepath_Join := fun dir name => dir +:+ "/" +:+ name;
     filepath_Base := fun path => path;
     rand_Int := fun _ w => (w, Some 0);
     time_Now := fun _ w => (w, "now");
     sha256_hex := fun input => input;
     fmt_int := fun _ => "n";
     strings_TrimSpace := fun t => t;
     ulid_New := fun w => (w, "01J");
     json_decode_validation := fun _ => Some okValidation;
     json_Marshal_request := fun _ => Some "{}";
     json_decode_request := fun _ => Some blankRequest;
     json_encode_response := fun resp => if Success resp then "ok" else "error";
     json_decode_response := fun body =>
       Some {| Success := String.eqb body "ok"; RespMessage := body; EmailID := "01J" |};
     http_NewRequest_ok := fun _ => true;
     http_Do_get := fun _ w => (w, if net_up then HttpResponse 200 "{}" else HttpFailed);
     net_request_arrives := fun _ w => (w, net_up);
     net_reply_arrives := fun _ w => (w, net_up);
     chi_route_store := plainRoute;
     chi_route_miss := fun _ => (404, "404 page not found");
     enmime_ReadEnvelope := fun _ => None;
     spf_CheckHostWithSender := fun _ _ _ w => (w, (spf, None));
     dkim_Verify := fun _ w => (w, inl []);
     dmarc_Lookup := fun _ w => (w, dmarc);
     db_IsValidAddress := fun _ w => (w, DbAnswer true false);
     db_InsertEmail := fun _ w => (w, true);
     db_InsertAttachment := fun _ w => (w, true) |}.

Definition upEnv : Env unit := plainEnv true SpfFail (DmarcRecord "reject").
Definition downEnv : Env unit := plainEnv false SpfNone DmarcNoPolicy.

(** A service with a ceiling of 16 bytes that only logs the verdicts, and
    the same service with the [reject] policy. *)
Definition logOnly : Config :=
  {| StoragePath := "mail"; APIServiceURL := "http://api"; MaxEmailSize := 16;
     ValidateSPF := true; ValidateDKIM := true; ValidateDMARC := true;
     AuthPolicy := "log" |}.

Definition rejecting : Config :=
  {| StoragePath := "mail"; APIServiceURL := "http://api"; MaxEmailSize := 16;
     ValidateSPF := true; ValidateDKIM := true; ValidateDMARC := true;
     AuthPolicy := "reject" |}.

Definition alice : recipientInfo :=
  {| address := "alice@tmp"; storageUsed := 0; storageQuota := 0 |}.

(** [bob] has 95 of his 100 bytes in use. *)
Definition bob : recipientInfo :=
  {| address := "bob@tmp"; storageUsed := 95; storageQuota := 100 |}.



Definition noRecipients : Session :=
  {| from := "carol@example.org"; recipients := []; clientIP := Some "192.0.2.1" |}.

Definition twoRecipients : Session :=
  {| from := "carol@example.org"; recipients := [bob; alice];
     clientIP := Some "192.0.2.1" |}.

Definition tenBytes : Reader := {| rd_data := "0123456789"; rd_fails := false |}.
Definition sixteenBytes : Reader := {| rd_data := "0123456789abcdef"; rd_fails := false |}.
Definition seventeenBytes : Reader := {| rd_data := "0123456789abcdefg"; rd_fails := false |}.

Definition failedSPF : AuthResult :=
  {| SPFResult := "fail"; DKIMResult := "none"; DMARCResult := "fail";
     SPFError := None; DKIMError := None; DMARCError := None |}.

End Scenario.

(** *** More worlds to run the model on *)

Module Scenario2.
Import Scenario.

(** A world whose authority answers every validation request with 404. *)
Definition notFoundEnv : Env unit :=
  {| os_MkdirAll := @os_MkdirAll unit upEnv;
     os_WriteFile := @os_WriteFile unit upEnv;
     os_Rename := @os_Rename unit upEnv;
     os_Remove := @os_Remove unit upEnv;
     filepath_Join := @filepath_Join unit upEnv;
     filepath_Base := @filepath_Base unit upEnv;
     rand_Int := @rand_Int unit upEnv;
     time_Now := @time_Now unit upEnv;
     sha256_hex := @sha256_hex unit upEnv;
     fmt_int := @fmt_int unit upEnv;
     strings_TrimSpace := @strings_TrimSpace unit upEnv;
     ulid_New := @ulid_New unit upEnv;
     json_decode_validation := @json_decode_validation unit upEnv;
     json_Marshal_request := @json_Marshal_request unit upEnv;
     json_decode_request := @json_decode_request unit upEnv;
     json_encode_response := @json_encode_response unit upEnv;
     json_decode_response := @json_decode_response unit upEnv;
     http_NewRequest_ok := @http_NewRequest_ok unit upEnv;
     http_Do_get := fun _ w => (w, HttpResponse 404 "not found");
     net_request_arrives := @net_request_arrives unit upEnv;
     net_reply_arrives := @net_reply_arrives unit upEnv;
     chi_route_store := @chi_route_store unit upEnv;
     chi_route_miss := @chi_route_miss unit upEnv;
     enmime_ReadEnvelope := @enmime_ReadEnvelope unit upEnv;
     spf_CheckHostWithSender := @spf_CheckHostWithSender unit upEnv;
     dkim_Verify := @dkim_Verify unit upEnv;
     dmarc_Lookup := @dmarc_Lookup unit upEnv;
     db_IsValidAddress := @db_IsValidAddress unit upEnv;
     db_InsertEmail := @db_InsertEmail unit upEnv;
     db_InsertAttachment := @db_InsertAttachment unit upEnv |}.

(** A world whose database knows every address as expired. *)
Definition expiredEnv : Env unit :=
  {| os_MkdirAll := @os_MkdirAll unit upEnv;
     os_WriteFile := @os_WriteFile unit upEnv;
     os_Rename := @os_Rename unit upEnv;
     os_Remove := @os_Remove unit upEnv;
     filepath_Join := @filepath_Join unit upEnv;
     filepath_Base := @filepath_Base unit upEnv;
     rand_Int := @rand_Int unit upEnv;
     time_Now := @time_Now unit upEnv;
     sha256_hex := @sha256_hex unit upEnv;
     fmt_int := @fmt_int unit upEnv;
     strings_TrimSpace := @strings_TrimSpace unit upEnv;
     ulid_New := @ulid_New unit upEnv;
     json_decode_validation := @json_decode_validation unit upEnv;
     json_Marshal_request := @json_Marshal_request unit upEnv;
     json_decode_request := @json_decode_request unit upEnv;
     json_encode_response := @json_encode_response unit upEnv;
     json_decode_response := @json_decode_response unit upEnv;
     http_NewRequest_ok := @http_NewRequest_ok unit upEnv;
     http_Do_get := @http_Do_get unit upEnv;
     net_request_arrives := @net_request_arrives unit upEnv;
     net_reply_arrives := @net_reply_arrives unit upEnv;
     chi_route_store := @chi_route_store unit upEnv;
     chi_route_miss := @chi_route_miss unit upEnv;
     enmime_ReadEnvelope := @enmime_ReadEnvelope unit upEnv;
     spf_CheckHostWithSender := @spf_CheckHostWithSender unit upEnv;
     dkim_Verify := @dkim_Verify unit upEnv;
     dmarc_Lookup := @dmarc_Lookup unit upEnv;
     db_IsValidAddress := fun _ w => (w, DbAnswer true true);
     db_InsertEmail := @db_InsertEmail unit upEnv;
     db_InsertAttachment := @db_InsertAttachment unit upEnv |}.

(** A world in which files can be written but not renamed. *)
Definition noRenameEnv : Env unit :=
  {| os_MkdirAll := @os_MkdirAll unit upEnv;
     os_WriteFile := @os_WriteFile unit upEnv;
     os_Rename := fun _ _ w => (w, false);
     os_Remove := @os_Remove unit upEnv;
     filepath_Join := @filepath_Join unit upEnv;
     filepath_Base := @filepath_Base unit upEnv;
     rand_Int := @rand_Int unit upEnv;
     time_Now := @time_Now unit upEnv;
     sha256_hex := @sha256_hex unit upEnv;
     fmt_int := @fmt_int unit upEnv;
     strings_TrimSpace := @strings_TrimSpace unit upEnv;
     ulid_New := @ulid_New unit upEnv;
     json_decode_validation := @json_decode_validation unit upEnv;
     json_Marshal_request := @json_Marshal_request unit upEnv;
     json_decode_request := @json_decode_request unit upEnv;
     json_encode_response := @json_encode_response unit upEnv;
     json_decode_response := @json_decode_response unit upEnv;
     http_NewRequest_ok := @http_NewRequest_ok unit upEnv;
     http_Do_get := @http_Do_get unit upEnv;
     net_request_arrives := @net_request_arrives unit upEnv;
     net_reply_arrives := @net_reply_arrives unit upEnv;
     chi_route_store := @chi_route_store unit upEnv;
     chi_route_miss := @chi_route_miss unit upEnv;
     enmime_ReadEnvelope := @enmime_ReadEnvelope unit upEnv;
     spf_CheckHostWithSender := @spf_CheckHostWithSender unit upEnv;
     dkim_Verify := @dkim_Verify unit upEnv;
     dmarc_Lookup := @dmarc_Lookup unit upEnv;
     db_IsValidAddress := @db_IsValidAddress unit upEnv;
     db_InsertEmail := @db_InsertEmail unit upEnv;
     db_InsertAttachment := @db_InsertAttachment unit upEnv |}.

(** A session whose sender is the empty reverse path of a bounce. *)
Definition bounce : Session :=
  {| from := ""; recipients := [alice]; clientIP := Some "192.0.2.1" |}.

End Scenario2.

(** *** websocket/hub.go: the hub event loop *)

Module Hub.

(** A subscriber connection as the hub sees it.  The [Client] struct is
    declared in websocket/client.go; the hub uses its [address] field, its
    [send] channel and the identity of the pointer, modelled by [cid]. *)
Record Client : Type := { cid : nat; address : string }.

#[global] Instance Client_eq_dec : EqDecision Client.
Proof. solve_decision. Defined.

#[global] Instance Client_countable : Countable Client :=
  inj_countable' (fun c => (cid c, address c))
                 (fun p => {| cid := p.1; address := p.2 |})
                 (fun c => match c with Build_Client _ _ => eq_refl end).

(** The state the loop of [Hub.Run] owns: the map [h.clients] from an
    address to its set of clients (a Go [map[string]map[*Client]bool]), and
    which [send] channels have been closed.  Closing a closed channel and
    sending on a closed channel panic, which ends the hub goroutine. *)
Record HubState : Type := {
  clients : gmap string (gset Client);
  send_closed : gset Client
}.

Definition NewHub : HubState := {| clients := ∅; send_closed := ∅ |}.

(** What the loop receives on its three channels.  For a broadcast the
    environment decides whether [json.Marshal] succeeds and, for each
    client, whether its bounded [send] queue is full at that instant. *)
Inductive HubMsg : Type :=
| Register (c : Client)
| Unregister (c : Client)
| Broadcast (addr : string) (marshal_ok : bool) (queue_full : Client -> bool).

(** [delete(clients, client)] on the inner map stored under [addr], followed
    by [if len(clients) == 0 { delete(h.clients, addr) }]. *)
Definition drop_client (addr : string) (cs : gset Client) (c : Client)
    (m : gmap string (gset Client)) : gset Client * gmap string (gset Client) :=
  let cs' := cs ∖ {[c]} in
  (cs', if decide (size cs' = 0%nat) then delete addr m else <[addr := cs']> m).

(** [case client := <-h.register]. *)
Definition register (c : Client) (h : HubState) : option HubState :=
  let cs := match clients h !! address c with
            | Some cs => cs
            | None => ∅          (* make(map[*Client]bool) *)
            end in
  Some {| clients := <[address c := {[c]} ∪ cs]> (clients h);
          send_closed := send_closed h |}.

(** [case client := <-h.unregister]. *)
Definition unregister (c : Client) (h : HubState) : option HubState :=
  match clients h !! address c with
  | Some cs =>
    if decide (c ∈ cs) then
      if decide (c ∈ send_closed h) then None   (* close of a closed channel *)
      else
        Some {| clients := (drop_client (address c) cs c (clients h)).2;
                send_closed := {[c]} ∪ send_closed h |}
    else Some h
  | None => Some h
  end.

(** The [for client := range clients] loop of the broadcast case.  [cs] is
    the inner map the local variable [clients] refers to; it is the object
    stored under [addr], so removing from it is seen through [h.clients]. *)
Fixpoint broadcast_loop (addr : string) (queue_full : Client -> bool)
    (todo : list Client) (cs : gset Client) (h : HubState) : option HubState :=
  match todo with
  | [] => Some h
  | c :: rest =>
    if decide (c ∈ send_closed h) then None     (* send on a closed channel *)
    else if queue_full c then
      let '(cs', m') := drop_client addr cs c (clients h) in
      broadcast_loop addr queue_full rest cs'
        {| clients := m'; send_closed := {[c]} ∪ send_closed h |}
    else broadcast_loop addr queue_full rest cs h
  end.

(** [case broadcastMsg := <-h.broadcast].  Go ranges over a map in an
    unspecified order; the loop visits every client of the room once. *)
Definition broadcast (addr : string) (marshal_ok : bool)
    (queue_full : Client -> bool) (h : HubState) : option HubState :=
  match clients h !! addr with
  | None => Some h
  | Some cs =>
    if marshal_ok then broadcast_loop addr queue_full (elements cs) cs h
    else Some h
  end.

Definition step (msg : HubMsg) (h : HubState) : option HubState :=
  match msg with
  | Register c => register c h
  | Unregister c => unregister c h
  | Broadcast addr ok full => broadcast addr ok full h
  end.

(** The [for { select { ... } }] loop over the messages received so far;
    [None] when the goroutine has panicked. *)
Fixpoint run (msgs : list HubMsg) (h : HubState) : option HubState :=
  match msgs with
  | [] => Some h
  | msg :: rest =>
    match step msg h with
    | Some h' => run rest h'
    | None => None
    end
  end.

(** No dangling empty rooms. *)
Definition rooms_nonempty (h : HubState) : Prop :=
  forall (addr : string) (cs : gset Client),
    clients h !! addr = Some cs -> cs <> ∅.

(** The clients a message sequence registers, in order. *)
Fixpoint registered (msgs : list HubMsg) : list Client :=
  match msgs with
  | [] => []
  | Register c :: rest => c :: registered rest
  | _ :: rest => registered rest
  end.

(** What holds of a hub whose registered clients are [R]: a client sits in
    the room of its own address, a subscribed client has an open [send]
    channel, and only registered clients are subscribed or closed. *)
Definition consistent (R : gset Client) (h : HubState) : Prop :=
  (forall a cs c, clients h !! a = Some cs -> c ∈ cs ->
     address c = a /\ (c ∉ send_closed h) /\ (c ∈ R))
  /\ (send_closed h ⊆ R).

(** Two subscribers of one address; [slow] never drains its queue. *)
Definition fast : Client := {| cid := 1; address := "alice@tmp" |}.
Definition slow : Client := {| cid := 2; address := "alice@tmp" |}.

Definition slowIsFull (c : Client) : bool := Nat.eqb (cid c) 2.

Definition bothSubscribed : HubState :=
  {| clients := {["alice@tmp" := {[slow; fast]}]}; send_closed := ∅ |}.

Definition oneDropped : list HubMsg :=
  [Register fast; Register slow; Broadcast "alice@tmp" true slowIsFull; Unregister slow].

(** The rooms with that of [addr] set to [cs], or removed when [cs] is
    empty: what [drop_client] leaves in [h.clients]. *)
Definition set_room (addr : string) (cs : gset Client)
    (m : gmap string (gset Client)) : gmap string (gset Client) :=
  if decide (size cs = 0%nat) then delete addr m else <[addr := cs]> m.

(** Every client sits in the room of its own address. *)
Definition own_rooms (m : gmap string (gset Client)) : Prop :=
  forall a cs c, m !! a = Some cs -> c ∈ cs -> address c = a.

(** The subscribers of a room whose queue is full, and the others. *)
Definition slow_ones (queue_full : Client -> bool) (cs : gset Client) : gset Client :=
  filter (fun c => queue_full c = true) cs.

Definition fast_ones (queue_full : Client -> bool) (cs : gset Client) : gset Client :=
  filter (fun c => queue_full c = false) cs.

End Hub.

(** *** api/middleware/ratelimit.go: the per-address rate limiter *)

Module RateLimit.

(** [RateLimiter]: the map from a client IP to the instants of its
    accepted requests.  An instant ([time.Time]) and a duration are
    integers of nanoseconds. *)
Record RateLimiter : Type := {
  requests : gmap string (list Z);
  limit : Z;
  window : Z;
  name : string
}.

(** [time.Minute]. *)
Definition Minute : Z := 60 * 1000000000.

Definition NewRateLimiterWithName (requestsPerMinute : Z) (name : string) : RateLimiter :=
  {| requests := ∅; limit := requestsPerMinute; window := Minute; name := name |}.

Definition NewRateLimiter (requestsPerMinute : Z) : RateLimiter :=
  NewRateLimiterWithName requestsPerMinute "default".

(** [ts.After(u)]. *)
Definition After (ts u : Z) : bool := u <? ts.

(** The loop that keeps the timestamps after [windowStart]. *)
Definition validTimestamps (windowStart : Z) (timestamps : list Z) : list Z :=
  List.filter (fun ts => After ts windowStart) timestamps.

Definition set_requests (rl : RateLimiter) (m : gmap string (list Z)) : RateLimiter :=
  {| requests := m; limit := limit rl; window := window rl; name := name rl |}.

(** [RateLimiter.isLimited], called when the clock reads [now]: whether the
    request is refused, and the limiter afterwards. *)
Definition isLimited (ip : string) (now : Z) (rl : RateLimiter) : bool * RateLimiter :=
  let windowStart := now - window rl in
  let timestamps := match requests rl !! ip with
                    | Some timestamps => timestamps
                    | None => []
                    end in
  let valid := validTimestamps windowStart timestamps in
  if limit rl <=? Z.of_nat (length valid) then (true, rl)
  else (false, set_requests rl (<[ip := valid ++ [now]]> (requests rl))).

(** [RateLimiter.Allow]. *)
Definition Allow (ip : string) (now : Z) (rl : RateLimiter) : bool * RateLimiter :=
  let '(limited, rl') := isLimited ip now rl in (negb limited, rl').

(** [RateLimiter.Cleanup]: every entry is cut to its valid timestamps and
    deleted when none is left. *)
Definition Cleanup (now : Z) (rl : RateLimiter) : RateLimiter :=
  let windowStart := now - window rl in
  set_requests rl
    (omap (fun timestamps =>
             let valid := validTimestamps windowStart timestamps in
             if (length valid =? 0)%nat then None else Some valid)
          (requests rl)).

(** The calls a limiter receives, each with the reading of the clock. *)
Inductive Call : Type :=
| Request (ip : string) (now : Z)
| Sweep (now : Z).

Definition clock (c : Call) : Z :=
  match c with
  | Request _ now => now
  | Sweep now => now
  end.

Definition serve (c : Call) (rl : RateLimiter) : RateLimiter :=
  match c with
  | Request ip now => (isLimited ip now rl).2
  | Sweep now => Cleanup now rl
  end.

(** The limiter after a sequence of calls. *)
Definition serveAll (calls : list Call) (rl : RateLimiter) : RateLimiter :=
  fold_left (fun rl c => serve c rl) calls rl.

(** The instants of the requests of [ip] that were accepted, oldest first. *)
Fixpoint accepted (ip : string) (calls : list Call) (rl : RateLimiter) : list Z :=
  match calls with
  | [] => []
  | c :: rest =>
    match c with
    | Request ip' now =>
      if String.eqb ip' ip && negb (isLimited ip' now rl).1
      then now :: accepted ip rest (serve c rl)
      else accepted ip rest (serve c rl)
    | Sweep _ => accepted ip rest (serve c rl)
    end
  end.

(** The readings of a clock that does not go backwards. *)
Fixpoint monotone (from : Z) (readings : list Z) : Prop :=
  match readings with
  | [] => True
  | t :: rest => from <= t /\ monotone t rest
  end.

(** What a limiter keeps after any calls: no entry is empty and no entry
    holds more timestamps than the limit. *)
Definition bounded (rl : RateLimiter) : Prop :=
  forall ip l, requests rl !! ip = Some l ->
    l <> [] /\ Z.of_nat (length l) <= limit rl.

(** The timestamps kept for [ip]; none when the map has no entry. *)
Definition timestampsOf (ip : string) (rl : RateLimiter) : list Z :=
  match requests rl !! ip with
  | Some timestamps => timestamps
  | None => []
  end.

Definition burst : list Call :=
  [Request "192.0.2.7" 10; Request "192.0.2.7" 20; Request "192.0.2.7" 30;
   Sweep 40; Request "198.51.100.1" 50].

End RateLimit.

(** *** Reading traces and sessions: what the properties below speak of *)

Module Observe.
Import GoString GoStrings Storage Smtp.

(** The number of occurrences of a byte in a string. *)
Fixpoint count_byte (c : ascii) (s : string) : nat :=
  match s with
  | EmptyString => 0
  | String a t => (if Ascii.eqb a c then 1 else 0) + count_byte c t
  end.

(** The addresses the hub was told of, in order. *)
Definition broadcasts (tr : list Event) : list string :=
  flat_map (fun ev => match ev with EvBroadcast addr _ => [addr] | _ => [] end) tr.

(** The emails and attachments handed to the database, in order. *)
Definition inserted_emails (tr : list Event) : list Email :=
  flat_map (fun ev => match ev with EvDbInsertEmail e => [e] | _ => [] end) tr.

Definition inserted_attachments (tr : list Event) : list Attachment :=
  flat_map (fun ev => match ev with EvDbInsertAttachment a => [a] | _ => [] end) tr.

(** The events of the first half of [Data]: the read of the body and the
    three authentication lookups. *)
Definition check_event (ev : Event) : Prop :=
  match ev with
  | EvReadBody _ | EvSpfCheck _ _ | EvDkimVerify | EvDmarcLookup _ _ => True
  | _ => False
  end.

(** An event that is neither a store request nor a publish. *)
Definition silent_event (ev : Event) : Prop :=
  match ev with
  | EvHttpPost _ _ | EvBroadcast _ _ => False
  | _ => True
  end.

(** The URL of the store endpoint for an address, as [doStoreEmail] builds it. *)
Definition storeURL (baseURL address : string) : string :=
  baseURL +:+ "/internal/v1/email/" +:+ address +:+ "/store".

(** An event that, when it is a store request, goes to the store URL of one
    of the addresses [allowed], and when it is a publish, is for the address
    the router hands to the store endpoint for such a URL. *)
Definition only_for {W : Type} `{Env W} (baseURL : string) (allowed : list string)
    (ev : Event) : Prop :=
  match ev with
  | EvHttpPost url _ => exists a, In a allowed /\ url = storeURL baseURL a
  | EvBroadcast addr _ =>
    exists a, In a allowed /\ chi_route_store (storeURL baseURL a) = Some addr
  | _ => True
  end.

(** The accepted recipients that a message of [emailSize] bytes is
    delivered to: those the quota test does not skip. *)
Definition within_quota (emailSize : Z) (rcpts : list recipientInfo) : list recipientInfo :=
  List.filter (fun rcpt => negb (overQuota rcpt emailSize)) rcpts.

(** A series of RCPT commands on one session: the session afterwards and
    the reply to each command. *)
Fixpoint rcptAll {W : Type} `{Env W} (cfg : Config) (tos : list string) (s : Session)
    : M W (Session * list (option SMTPError)) :=
  match tos with
  | [] => ret (s, [])
  | to_ :: rest =>
    bind (Rcpt cfg to_ s) (fun '(s1, reply) =>
    bind (rcptAll cfg rest s1) (fun '(s2, replies) =>
    ret (s2, reply :: replies)))
  end.

Definition accepted_replies (replies : list (option SMTPError)) : nat :=
  length (List.filter (fun reply => match reply with None => true | Some _ => false end)
                      replies).

(** The rows the attachment loop of the store endpoint builds from the
    paths, names and sizes of a request, counting from index [i]: the path
    with the name and the size at the same index, or with the empty name
    and the size 0 where the request has none. *)
Fixpoint padded_attachments (names : list string) (sizes : list Z) (i : nat)
    (paths : list string) : list (string * string * Z) :=
  match paths with
  | [] => []
  | path :: rest =>
    (path,
     match names !! i with Some n => n | None => EmptyString end,
     match sizes !! i with Some z => z | None => 0 end)
      :: padded_attachments names sizes (S i) rest
  end.

End Observe.

(** ** Part II. Properties *)

Module StorageProps.
Import GoString Storage.

Lemma byte_val_range a : 0 <= byte_val a < 256.
Proof.
  unfold byte_val. pose proof (N_ascii_bounded a). lia.
Qed.

Lemma byte_of_val a : byte_of (byte_val a) = a.
Proof.
  unfold byte_of, byte_val. rewrite N2Z.id. apply ascii_N_embedding.
Qed.

Lemma safe_rune_kept ch : safe_rune ch = kept_char ch.
Proof. reflexivity. Qed.

Lemma safe_rune_ascii ch : safe_rune ch = true -> 0 <= ch < 128.
Proof.
  rewrite safe_rune_kept. unfold kept_char, is_ascii_alnum.
  rewrite !orb_true_iff, !andb_true_iff, !Z.leb_le, !Z.eqb_eq. lia.
Qed.

Lemma val_byte_of ch : 0 <= ch < 256 -> byte_val (byte_of ch) = ch.
Proof.
  intros Hr. unfold byte_of, byte_val.
  rewrite N_ascii_embedding; [lia|]. lia.
Qed.

(** Every byte the loop emits is one of the kept characters. *)
Lemma sanitize_loop_safe s : forall skip,
  Forall (fun b => safe_rune b = true) (bytes (sanitize_loop skip s)).
Proof.
  induction s as [|b t IH]; intros skip; cbn [sanitize_loop].
  - constructor.
  - destruct skip as [|k]; [|apply IH].
    destruct (DecodeRune (b :: t)) as [ch sz].
    destruct (safe_rune ch) eqn:Hs; cbn [append bytes string_of_ascii_rune].
    + constructor; [|apply IH].
      rewrite val_byte_of; [done|]. apply safe_rune_ascii in Hs. lia.
    + constructor; [reflexivity | apply IH].
Qed.

(** On a string of kept characters the loop is the identity. *)
Lemma sanitize_loop_fixed s :
  Forall (fun b => safe_rune b = true) (bytes s) ->
  sanitize_loop 0 (bytes s) = s.
Proof.
  induction s as [|a t IH]; intros Hall; cbn [bytes sanitize_loop]; [done|].
  cbn [bytes] in Hall. inversion Hall as [|? ? Ha Ht]; subst.
  pose proof (safe_rune_ascii _ Ha) as Hr.
  unfold DecodeRune, first.
  replace (byte_val a <? 128) with true by (symmetry; apply Z.ltb_lt; lia).
  rewrite Ha. unfold string_of_ascii_rune.
  change (1 - 1)%nat with 0%nat. rewrite byte_of_val, IH; done.
Qed.

Lemma sanitize_loop_runes s : forall skip,
  sanitize_loop skip s =
  string_of_runes (map (fun ch => if kept_char ch then ch else 95) (range_runes skip s)).
Proof.
  induction s as [|b t IH]; intros skip; cbn [sanitize_loop range_runes]; [done|].
  destruct skip as [|k]; [|apply IH].
  destruct (DecodeRune (b :: t)) as [ch sz].
  cbn [map string_of_runes]. rewrite <- IH.
  change (safe_rune ch) with (kept_char ch).
  destruct (kept_char ch) eqn:Hk; [reflexivity|].
  unfold byte_of. reflexivity.
Qed.

(** C9. Sanitising an attachment name twice gives the same result as
    sanitising it once; and [sanitizeFilename] is the function of the spec:
    every character that is an ASCII letter or digit or one of [.], [-], [_]
    is kept unchanged, every other character becomes [_]. *)
Theorem sanitizeFilename_idempotent :
  forall name : string,
    sanitizeFilename (sanitizeFilename name) = sanitizeFilename name
    /\ sanitizeFilename name = sanitize_spec name.
Proof.
  intros name. split.
  - unfold sanitizeFilename at 1. apply sanitize_loop_fixed.
    apply sanitize_loop_safe.
  - apply sanitize_loop_runes.
Qed.

End StorageProps.

(** *** The hub keeps no empty room *)

Module HubProps.
Import Hub.

Lemma drop_client_nonempty addr cs c (m : gmap string (gset Client)) :
  (forall a s, m !! a = Some s -> s <> ∅) ->
  forall a s, (drop_client addr cs c m).2 !! a = Some s -> s <> ∅.
Proof.
  intros Hm a s. unfold drop_client. cbn [snd].
  destruct (decide (size (cs ∖ {[c]}) = 0%nat)) as [Hz|Hnz].
  - rewrite lookup_delete. case_decide; [done | apply Hm].
  - rewrite lookup_insert. case_decide; [|apply Hm].
    intros [= <-] Hempty. apply Hnz. rewrite Hempty. apply size_empty.
Qed.

Lemma register_rooms c h h' :
  rooms_nonempty h -> register c h = Some h' -> rooms_nonempty h'.
Proof.
  intros Hinv [= <-] a s. cbn [clients].
  rewrite lookup_insert. case_decide; [|apply Hinv].
  intros [= <-]. set_solver.
Qed.

Lemma unregister_rooms c h h' :
  rooms_nonempty h -> unregister c h = Some h' -> rooms_nonempty h'.
Proof.
  intros Hinv. unfold unregister.
  destruct (clients h !! address c) as [cs|] eqn:Hcs; [|by intros [= <-]].
  destruct (decide (c ∈ cs)); [|by intros [= <-]].
  destruct (decide (c ∈ send_closed h)); [done|].
  intros [= <-] a s. cbn [clients]. by apply drop_client_nonempty.
Qed.

Lemma broadcast_loop_rooms addr full todo : forall cs h h',
  rooms_nonempty h ->
  broadcast_loop addr full todo cs h = Some h' -> rooms_nonempty h'.
Proof.
  induction todo as [|c rest IH]; intros cs h h' Hinv; cbn [broadcast_loop].
  - by intros [= <-].
  - destruct (decide (c ∈ send_closed h)); [done|].
    destruct (full c); [|by apply IH].
    destruct (drop_client addr cs c (clients h)) as [cs' m'] eqn:Hd.
    apply IH. intros a s. cbn [clients].
    replace m' with (drop_client addr cs c (clients h)).2 by (by rewrite Hd).
    by apply drop_client_nonempty.
Qed.

Lemma step_rooms msg h h' :
  rooms_nonempty h -> step msg h = Some h' -> rooms_nonempty h'.
Proof.
  intros Hinv. destruct msg as [c|c|addr ok full]; cbn [step].
  - by apply register_rooms.
  - by apply unregister_rooms.
  - unfold broadcast. destruct (clients h !! addr) as [cs|]; [|by intros [= <-]].
    destruct ok; [|by intros [= <-]]. by apply broadcast_loop_rooms.
Qed.

Lemma run_rooms msgs : forall h h',
  rooms_nonempty h -> run msgs h = Some h' -> rooms_nonempty h'.
Proof.
  induction msgs as [|msg rest IH]; intros h h' Hinv; cbn [run].
  - by intros [= <-].
  - destruct (step msg h) as [h1|] eqn:Hstep; [|done].
    apply IH. by eapply step_rooms.
Qed.

(** **** The hub does not panic when every client registers once *)

Lemma register_consistent R c h :
  consistent R h -> c ∉ R ->
  exists h', register c h = Some h' /\ consistent ({[c]} ∪ R) h'.
Proof.
  intros [Hrooms Hclosed] Hfresh. eexists. split; [reflexivity|].
  split; cbn [clients send_closed]; [|set_solver].
  intros a cs c'. rewrite lookup_insert. case_decide as Ha.
  - intros [= <-] Hin. subst a.
    apply elem_of_union in Hin as [Hin|Hin].
    + apply elem_of_singleton in Hin as ->. set_solver.
    + destruct (clients h !! address c) as [cs0|] eqn:Hcs; [|set_solver].
      destruct (Hrooms _ _ _ Hcs Hin) as (? & ? & ?). set_solver.
  - intros Hcs Hin. destruct (Hrooms _ _ _ Hcs Hin) as (? & ? & ?). set_solver.
Qed.

Lemma drop_client_lookup addr cs c (m : gmap string (gset Client)) a s :
  (drop_client addr cs c m).2 !! a = Some s ->
  (a = addr /\ s = cs ∖ {[c]}) \/ (a <> addr /\ m !! a = Some s).
Proof.
  unfold drop_client. cbn [snd].
  destruct (decide (size (cs ∖ {[c]}) = 0%nat)).
  - rewrite lookup_delete. case_decide; [done | by right].
  - rewrite lookup_insert. case_decide; [intros [= <-]; by left | by right].
Qed.

Lemma drop_consistent R addr cs c h :
  consistent R h ->
  (forall c', c' ∈ cs -> address c' = addr /\ (c' ∉ send_closed h) /\ (c' ∈ R)) ->
  c ∈ cs ->
  consistent R {| clients := (drop_client addr cs c (clients h)).2;
                  send_closed := {[c]} ∪ send_closed h |}.
Proof.
  intros [Hrooms Hclosed] Hcs Hc.
  destruct (Hcs c Hc) as (Hca & _ & HcR).
  split; cbn [clients send_closed]; [|set_solver].
  intros a s c' Hlook Hin.
  apply drop_client_lookup in Hlook as [[-> ->]|[Hne Hlook]].
  - apply elem_of_difference in Hin as [Hin Hnc].
    destruct (Hcs c' Hin) as (? & ? & ?). set_solver.
  - destruct (Hrooms _ _ _ Hlook Hin) as (Ha & ? & ?).
    assert (c' <> c) by congruence. set_solver.
Qed.

Lemma unregister_consistent R c h :
  consistent R h -> exists h', unregister c h = Some h' /\ consistent R h'.
Proof.
  intros Hcons. unfold unregister.
  destruct (clients h !! address c) as [cs|] eqn:Hcs; [|by exists h].
  destruct (decide (c ∈ cs)) as [Hin|]; [|by exists h].
  destruct Hcons as [Hrooms Hclosed].
  destruct (Hrooms _ _ _ Hcs Hin) as (_ & Hopen & _).
  destruct (decide (c ∈ send_closed h)); [done|].
  eexists. split; [reflexivity|].
  apply drop_consistent; [done | | done].
  intros c' Hc'. by apply (Hrooms _ _ _ Hcs).
Qed.

Lemma broadcast_loop_consistent R addr full todo : forall cs h,
  consistent R h -> NoDup todo ->
  (forall c, c ∈ todo -> c ∈ cs) ->
  (forall c, c ∈ cs -> address c = addr /\ (c ∉ send_closed h) /\ (c ∈ R)) ->
  exists h', broadcast_loop addr full todo cs h = Some h' /\ consistent R h'.
Proof.
  induction todo as [|c rest IH]; intros cs h Hcons Hnd Hsub Hcs; cbn [broadcast_loop].
  - by exists h.
  - apply NoDup_cons in Hnd as [Hfresh Hnd].
    assert (Hc : c ∈ cs) by (apply Hsub; left).
    destruct (Hcs c Hc) as (_ & Hopen & _).
    destruct (decide (c ∈ send_closed h)); [done|].
    destruct (full c).
    + destruct (drop_client addr cs c (clients h)) as [cs' m'] eqn:Hd.
      assert (Hcs' : cs' = cs ∖ {[c]}) by (unfold drop_client in Hd; congruence).
      assert (Hm' : m' = (drop_client addr cs c (clients h)).2) by (by rewrite Hd).
      subst cs' m'. apply IH; [by apply drop_consistent | done | |].
      * intros c' Hc'. apply elem_of_difference. split.
        -- apply Hsub. by right.
        -- intros Heq%elem_of_singleton. by subst c'.
      * intros c' [Hc' Hne]%elem_of_difference. cbn [send_closed].
        destruct (Hcs c' Hc') as (? & ? & ?). set_solver.
    + apply IH; [done | done | | done].
      intros c' Hc'. apply Hsub. by right.
Qed.

Lemma run_consistent msgs : forall R h,
  consistent R h -> NoDup (registered msgs) ->
  (forall c, c ∈ registered msgs -> c ∉ R) ->
  is_Some (run msgs h).
Proof.
  induction msgs as [|msg rest IH]; intros R h Hcons Hnd Hfresh; cbn [run]; [done|].
  destruct msg as [c|c|addr ok full]; cbn [step registered] in *.
  - apply NoDup_cons in Hnd as [Hc Hnd].
    destruct (register_consistent R c h Hcons) as (h' & -> & Hcons').
    { apply Hfresh. left. }
    apply (IH ({[c]} ∪ R)); [done | done |].
    intros c' Hc'. assert (c' <> c) by (intros ->; done).
    assert (c' ∉ R) by (apply Hfresh; by right). set_solver.
  - destruct (unregister_consistent R c h Hcons) as (h' & -> & Hcons').
    by apply (IH R).
  - unfold broadcast.
    destruct (clients h !! addr) as [cs|] eqn:Hcs; [|by apply (IH R)].
    destruct ok; [|by apply (IH R)].
    destruct (broadcast_loop_consistent R addr full (elements cs) cs h)
      as (h' & -> & Hcons'); [done | apply NoDup_elements | | |].
    + intros c Hc. by apply elem_of_elements.
    + intros c Hc. destruct Hcons as [Hrooms _]. by apply (Hrooms _ _ _ Hcs).
    + by apply (IH R).
Qed.

(** X4. When no client is registered twice (a connection registers once,
    when it is created), the loop never closes a closed channel nor sends
    on one: every message sequence leaves a hub. *)
Theorem hub_runs_without_panic (msgs : list HubMsg) :
  NoDup (registered msgs) -> is_Some (run msgs NewHub).
Proof.
  intros Hnd. apply (run_consistent msgs ∅); [|done|set_solver].
  split; cbn; [|set_solver]. intros a cs c. by rewrite lookup_empty.
Qed.

(** C7. After any sequence of register, unregister and broadcast steps from
    the empty hub (a broadcast removing every subscriber whose send queue is
    full), every address that is a key of the clients map has a non-empty
    subscriber set. *)
Theorem hub_rooms_never_empty :
  forall (msgs : list HubMsg) (h : HubState),
    run msgs NewHub = Some h ->
    forall (addr : string) (cs : gset Client),
      clients h !! addr = Some cs -> cs <> ∅.
Proof.
  intros msgs h Hrun. eapply run_rooms; [|exact Hrun].
  intros a s. cbn. by rewrite lookup_empty.
Qed.

(** The invariant on a run in which a slow subscriber is dropped by a
    broadcast and unregisters afterwards. *)
Lemma hub_rooms_never_empty_witness :
  exists h : HubState,
    run oneDropped NewHub = Some h
    /\ forall (addr : string) (cs : gset Client),
         clients h !! addr = Some cs -> cs <> ∅.
Proof.
  eexists. split; [vm_compute; reflexivity|].
  apply (hub_rooms_never_empty oneDropped). vm_compute. reflexivity.
Defined.

End HubProps.

(** *** Traces of composed computations *)

Module MonadProps.

Section Traces.
Context {W : Type}.

Lemma bind_run {A B : Type} (m : M W A) (k : A -> M W B) (w : W) :
  bind m k w =
    (world_of (k (value_of (m w)) (world_of (m w))),
     trace_of (m w) ++ trace_of (k (value_of (m w)) (world_of (m w))),
     value_of (k (value_of (m w)) (world_of (m w)))).
Proof.
  unfold bind, world_of, trace_of, value_of.
  destruct (m w) as [[w1 t1] a]. cbn [fst snd].
  by destruct (k a w1) as [[w2 t2] b].
Qed.

Lemma trace_bind {A B : Type} (m : M W A) (k : A -> M W B) (w : W) :
  trace_of (bind m k w) =
    trace_of (m w) ++ trace_of (k (value_of (m w)) (world_of (m w))).
Proof. by rewrite bind_run. Qed.

Lemma value_bind {A B : Type} (m : M W A) (k : A -> M W B) (w : W) :
  value_of (bind m k w) = value_of (k (value_of (m w)) (world_of (m w))).
Proof. by rewrite bind_run. Qed.

Lemma world_bind {A B : Type} (m : M W A) (k : A -> M W B) (w : W) :
  world_of (bind m k w) = world_of (k (value_of (m w)) (world_of (m w))).
Proof. by rewrite bind_run. Qed.

Lemma emits_only_ret {A : Type} (P : Event -> Prop) (a : A) :
  emits_only (W := W) P (ret a).
Proof. intros w. constructor. Qed.

Lemma emits_only_ask {A : Type} (P : Event -> Prop) (op : W -> W * A) :
  emits_only P (ask op).
Proof. intros w. unfold ask, trace_of. destruct (op w). constructor. Qed.

Lemma emits_only_call {A : Type} (P : Event -> Prop) (ev : Event) (op : W -> W * A) :
  P ev -> emits_only P (call ev op).
Proof.
  intros Hev w. unfold call, trace_of. destruct (op w). cbn. by repeat constructor.
Qed.

Lemma emits_only_emit (P : Event -> Prop) (ev : Event) :
  P ev -> emits_only (W := W) P (emit ev).
Proof. intros Hev w. cbn. by repeat constructor. Qed.

Lemma emits_only_bind {A B : Type} (P : Event -> Prop) (m : M W A) (k : A -> M W B) :
  emits_only P m -> (forall a, emits_only P (k a)) -> emits_only P (bind m k).
Proof.
  intros Hm Hk w. rewrite trace_bind.
  apply Forall_app. split; [apply Hm | apply Hk].
Qed.

Lemma emits_only_if {A : Type} (P : Event -> Prop) (b : bool) (m1 m2 : M W A) :
  emits_only P m1 -> emits_only P m2 -> emits_only P (if b then m1 else m2).
Proof. by destruct b. Qed.

Lemma sleeps_app (t1 t2 : list Event) : sleeps (t1 ++ t2) = sleeps t1 ++ sleeps t2.
Proof. unfold sleeps. apply flat_map_app. Qed.

Lemma posts_app (t1 t2 : list Event) : posts (t1 ++ t2) = posts t1 ++ posts t2.
Proof. unfold posts. apply flat_map_app. Qed.

Lemma trace_of_run {A : Type} (w : W) (tr : list Event) (a : A) :
  trace_of (w, tr, a) = tr.
Proof. reflexivity. Qed.

Lemma sleeps_pause (d : Z) (tr : list Event) : sleeps (EvSleep d :: tr) = d :: sleeps tr.
Proof. reflexivity. Qed.

Lemma posts_pause (d : Z) (tr : list Event) : posts (EvSleep d :: tr) = posts tr.
Proof. reflexivity. Qed.

Lemma local_no_sleeps (tr : list Event) : Forall local_event tr -> sleeps tr = [].
Proof.
  induction 1 as [|ev tr Hev _ IH]; [done|].
  change (ev :: tr) with ([ev] ++ tr). rewrite sleeps_app, IH.
  by destruct ev.
Qed.

Lemma local_no_posts (tr : list Event) : Forall local_event tr -> posts tr = [].
Proof.
  induction 1 as [|ev tr Hev _ IH]; [done|].
  change (ev :: tr) with ([ev] ++ tr). rewrite posts_app, IH.
  by destruct ev.
Qed.

End Traces.

End MonadProps.

(** *** The store client retries *)

Module ClientProps.
Import Storage Client MonadProps.

Section WithEnv.
Context {W : Type} `{Env W}.

Create HintDb traces.
#[local] Hint Resolve emits_only_ret emits_only_ask emits_only_call
  emits_only_emit emits_only_bind emits_only_if : traces.

Lemma NewAttachment_local emailID filename filepath size :
  emits_only local_event (Api.NewAttachment emailID filename filepath size).
Proof. unfold Api.NewAttachment. auto with traces. Qed.

Lemma insertAttachments_local emailID names sizes paths : forall i,
  emits_only local_event (Api.insertAttachments emailID names sizes i paths).
Proof.
  induction paths as [|path rest IH]; intros i; cbn [Api.insertAttachments].
  - auto with traces.
  - apply emits_only_bind; [apply NewAttachment_local|]. intros att.
    apply emits_only_bind; [by apply emits_only_call|]. intros _. apply IH.
Qed.

(** The store endpoint neither pauses nor sends a store request. *)
Lemma Api_StoreEmail_local address body :
  emits_only local_event (Api.StoreEmail address body).
Proof.
  unfold Api.StoreEmail, Api.failure, Api.NewEmail.
  destruct (String.eqb address ""); [auto with traces|].
  apply emits_only_bind; [by apply emits_only_call|]. intros [|valid expired].
  { auto with traces. }
  destruct valid; cbn [negb]; [|auto with traces].
  destruct expired; [auto with traces|].
  destruct (json_decode_request body) as [req|]; [|auto with traces].
  apply emits_only_bind; [auto with traces|]. intros email.
  apply emits_only_bind; [by apply emits_only_call|]. intros inserted.
  destruct inserted; cbn [negb]; [|auto with traces].
  apply emits_only_bind; [apply insertAttachments_local|]. intros _.
  apply emits_only_bind; [by apply emits_only_emit|]. intros _.
  auto with traces.
Qed.

(** One attempt pauses never and sends at most one store request. *)
Lemma doStoreEmail_trace baseURL address req (w : W) :
  sleeps (trace_of (doStoreEmail baseURL address req w)) = []
  /\ (length (posts (trace_of (doStoreEmail baseURL address req w))) <= 1)%nat.
Proof.
  unfold doStoreEmail.
  destruct (json_Marshal_request req) as [jsonData|]; [|cbn; split; [done | lia]].
  destruct (http_NewRequest_ok _); cbn [negb]; [|cbn; split; [done | lia]].
  rewrite !trace_bind.
  set (post := http_Do_post_store _ _ w).
  assert (Hpost : exists rest, trace_of post = EvHttpPost
            (baseURL +:+ "/internal/v1/email/" +:+ address +:+ "/store") jsonData :: rest
            /\ Forall local_event rest).
  { subst post. unfold http_Do_post_store. rewrite trace_bind.
    eexists. split; [reflexivity|].
    apply (emits_only_bind local_event); [auto with traces|]. intros arrives.
    destruct arrives; cbn [negb]; [|auto with traces].
    apply emits_only_bind; [|intros [status answer]; auto with traces].
    destruct (chi_route_store _) as [routed|]; [|auto with traces].
    apply emits_only_bind; [apply Api_StoreEmail_local|]. intros [status resp].
    auto with traces. }
  destruct Hpost as (rest & Hpost & Hrest).
  assert (Htail : trace_of
            (match value_of post with
             | HttpFailed => ret (Err "failed to send request")
             | HttpResponse status body =>
               if negb (status =? 200) then ret (Err "store request failed")
               else match json_decode_response body with
                    | Some storeResp =>
                      if negb (Success storeResp)
                      then ret (Err ("store failed: " +:+ RespMessage storeResp))
                      else ret (Ok storeResp)
                    | None => ret (Err "failed to decode response")
                    end
             end (world_of post)) = []).
  { destruct (value_of post) as [|status body]; [done|].
    destruct (negb (status =? 200)); [done|].
    destruct (json_decode_response body) as [r|]; [|done].
    by destruct (negb (Success r)). }
  rewrite Htail, app_nil_r, Hpost.
  set (ev := EvHttpPost _ jsonData).
  change (ev :: rest) with ([ev] ++ rest).
  rewrite sleeps_app, posts_app, (local_no_sleeps rest), (local_no_posts rest) by done.
  cbn. split; [done | lia].
Qed.

(** What the retry loop does on every input: at most three attempts and
    none after the first that succeeds; a pause only between two attempts,
    of 1 base unit (one second) before the second attempt and of 2 base
    units before the third. *)
Theorem store_email_three_attempts_two_pauses :
  forall (baseURL address : string) (req : StoreEmailRequest) (w : W),
    let attempt := doStoreEmail baseURL address req in
    let first := attempt w in
    let second := attempt (world_of first) in
    let third := attempt (world_of second) in
    let run := StoreEmail baseURL address req w in
    run =
      match value_of first with
      | Ok resp => (world_of first, trace_of first, Ok resp)
      | Err _ =>
        match value_of second with
        | Ok resp =>
          (world_of second,
           trace_of first ++ EvSleep (1 * Second) :: trace_of second, Ok resp)
        | Err _ =>
          (world_of third,
           trace_of first ++ EvSleep (1 * Second) :: trace_of second
             ++ EvSleep (2 * Second) :: trace_of third,
           match value_of third with
           | Ok resp => Ok resp
           | Err e => Err ("failed after 3 attempts: " +:+ e)
           end)
        end
      end
    /\ (sleeps (trace_of run) = []
        \/ sleeps (trace_of run) = [1 * Second]
        \/ sleeps (trace_of run) = [1 * Second; 2 * Second])
    /\ (length (posts (trace_of run)) <= 3)%nat.
Proof.
  intros baseURL address req w attempt first second third run.
  assert (Hrun : run =
      match value_of first with
      | Ok resp => (world_of first, trace_of first, Ok resp)
      | Err _ =>
        match value_of second with
        | Ok resp =>
          (world_of second,
           trace_of first ++ EvSleep (1 * Second) :: trace_of second, Ok resp)
        | Err _ =>
          (world_of third,
           trace_of first ++ EvSleep (1 * Second) :: trace_of second
             ++ EvSleep (2 * Second) :: trace_of third,
           match value_of third with
           | Ok resp => Ok resp
           | Err e => Err ("failed after 3 attempts: " +:+ e)
           end)
        end
      end).
  { subst run third second first attempt.
    unfold StoreEmail. change (Z.to_nat maxRetries) with 3%nat.
    cbn [storeAttempts]. change (0 <? 0) with false.
    change (0 <? 0 + 1) with true. change (0 <? 0 + 1 + 1) with true.
    change (backoff (0 + 1)) with (1 * Second).
    change (backoff (0 + 1 + 1)) with (2 * Second).
    unfold bind, emit, ret, world_of, trace_of, value_of.
    destruct (doStoreEmail baseURL address req w) as [[w1 t1] [resp1|e1]];
      cbn [fst snd app]; [by rewrite app_nil_r|].
    destruct (doStoreEmail baseURL address req w1) as [[w2 t2] [resp2|e2]];
      cbn [fst snd app]; [by rewrite app_nil_r|].
    destruct (doStoreEmail baseURL address req w2) as [[w3 t3] [resp3|e3]];
      cbn [fst snd app]; by rewrite !app_nil_r. }
  split; [exact Hrun|].
  destruct (doStoreEmail_trace baseURL address req w) as [Hs1 Hp1].
  destruct (doStoreEmail_trace baseURL address req (world_of first)) as [Hs2 Hp2].
  destruct (doStoreEmail_trace baseURL address req (world_of second)) as [Hs3 Hp3].
  fold attempt in Hs1, Hp1, Hs2, Hp2, Hs3, Hp3.
  fold first in Hs1, Hp1. fold second in Hs2, Hp2. fold third in Hs3, Hp3.
  rewrite Hrun.
  destruct (value_of first); [|destruct (value_of second)];
    rewrite !trace_of_run, ?sleeps_app, ?posts_app, ?sleeps_pause, ?posts_pause,
      ?sleeps_app, ?posts_app, ?sleeps_pause, ?posts_pause, ?Hs1, ?Hs2, ?Hs3,
      ?length_app;
    cbn [app]; split; auto; lia.
Qed.

End WithEnv.

(** C2. The code at the failing input.  With the API unreachable every
    attempt fails: the loop makes its three attempts and pauses for 1 and
    for 2 seconds between them.  The backoff of 4 seconds, third in the
    series [1s, 2s, 4s] that the comment in the loop and the claim
    announce, is never taken. *)
Lemma store_email_never_pauses_four_units :
  let tr := trace_of (StoreEmail (H := Scenario.downEnv) "http://api" "bob@tmp"
                                 Scenario.blankRequest tt) in
  length (posts tr) = 3%nat
  /\ sleeps tr = [1 * Second; 2 * Second]
  /\ sleeps tr <> [1 * Second; 2 * Second; 4 * Second].
Proof.
  vm_compute. repeat split; discriminate.
Qed.

End ClientProps.

(** *** The SMTP session *)

Module SmtpProps.
Import GoString GoStrings Storage Smtp.

Lemma length_substring_0 (s : string) : forall n : nat,
  (n <= String.length s)%nat -> String.length (String.substring 0 n s) = n.
Proof.
  induction s as [|a t IH]; intros [|n] Hn; cbn in *; try lia; try reflexivity.
  rewrite IH; [reflexivity | lia].
Qed.

Lemma len_slice_0 (s : string) (n : Z) :
  0 <= n <= len s -> len (slice s 0 n) = n.
Proof.
  intros Hn. unfold len, slice in *. rewrite Z.sub_0_r. cbn [Z.to_nat].
  rewrite length_substring_0; lia.
Qed.

(** What the limited read returns is never longer than the limit allows,
    and is as long as the limit when the stream has that many bytes. *)
Lemma readAllLimited_full (r : Reader) (n : Z) :
  n <= len (rd_data r) ->
  exists raw, readAllLimited r n = (raw, false) /\ n <= len raw.
Proof.
  intros Hn. unfold readAllLimited.
  destruct (Z.leb_spec n 0) as [Hle|Hgt].
  - exists EmptyString. split; [reflexivity | unfold len; cbn; lia].
  - destruct (Z.ltb_spec (len (rd_data r)) n) as [Hlt|Hge]; [lia|].
    eexists. split; [reflexivity|]. rewrite len_slice_0; lia.
Qed.

Lemma readAllLimited_short (r : Reader) (n : Z) :
  len (rd_data r) < n -> readAllLimited r n = (rd_data r, rd_fails r).
Proof.
  intros Hn. unfold readAllLimited.
  assert (0 <= len (rd_data r)) by (unfold len; lia).
  destruct (Z.leb_spec n 0); [lia|].
  destruct (Z.ltb_spec (len (rd_data r)) n); [reflexivity | lia].
Qed.

Section WithEnv.
Context {W : Type} `{Env W}.
Variable cfg : Config.

(** A body that fills the limit is refused after the read, with nothing
    but the read in the trace. *)
Lemma Data_at_or_over_limit (s : Session) (r : Reader) (w : W) :
  recipients s <> [] ->
  MaxEmailSize cfg <= len (rd_data r) ->
  exists k : nat,
    Data cfg s r w =
      (w, [EvReadBody k],
       Some {| Code := 552; Message := "Email exceeds maximum size (20MB)" |}).
Proof.
  intros Hrcpt Hlen.
  destruct (readAllLimited_full r (MaxEmailSize cfg) Hlen) as (raw & Hread & Hraw).
  exists (String.length raw).
  unfold Data, receive, bind, emit, ret.
  destruct (recipients s) as [|r0 rs]; [done|].
  rewrite Hread.
  destruct (Z.leb_spec (MaxEmailSize cfg) (len raw)); [reflexivity | lia].
Qed.

(** C8. With no accepted recipient the data phase fails with the permanent
    error 554 "No valid recipients"; nothing is read from the message body
    and nothing else happens (the trace is empty and the world unchanged). *)
Theorem data_no_valid_recipients :
  forall (s : Session) (r : Reader) (w : W),
    recipients s = [] ->
    Data cfg s r w =
      (w, [], Some {| Code := 554; Message := "No valid recipients" |})
    /\ permanent {| Code := 554; Message := "No valid recipients" |}.
Proof.
  intros s r w Hnone. split.
  - unfold Data, receive, bind, ret. rewrite Hnone. reflexivity.
  - unfold permanent. cbn. lia.
Qed.

(** C4. In a transaction (at least one accepted recipient) whose body is
    longer than the configured ceiling, the data phase answers with the
    permanent error 552; the bytes read are dropped: the only event is the
    read itself, so no file is written and nothing is published, and the
    world is unchanged. *)
Theorem data_message_too_large :
  forall (s : Session) (r : Reader) (w : W),
    recipients s <> [] ->
    MaxEmailSize cfg < len (rd_data r) ->
    exists (k : nat) (e : SMTPError),
      Data cfg s r w = (w, [EvReadBody k], Some e)
      /\ Code e = 552
      /\ Message e = "Email exceeds maximum size (20MB)"
      /\ permanent e.
Proof.
  intros s r w Hrcpt Hlen.
  destruct (Data_at_or_over_limit s r w Hrcpt) as [k Hk]; [lia|].
  exists k. eexists. split; [exact Hk|].
  unfold permanent. cbn. repeat split; lia.
Qed.

(** Whatever [Data] accepts was shorter than the limit. *)
Lemma Data_accepts_below_limit (s : Session) (r : Reader) (w : W) :
  value_of (Data cfg s r w) = None -> len (rd_data r) <= MaxEmailSize cfg - 1.
Proof.
  intros Hacc.
  destruct (Z.le_gt_cases (MaxEmailSize cfg) (len (rd_data r))) as [Hge|Hlt]; [|lia].
  destruct (recipients s) as [|r0 rs] eqn:Hrs.
  - unfold Data, receive, bind, ret in Hacc. rewrite Hrs in Hacc. discriminate.
  - destruct (Data_at_or_over_limit s r w) as [k Hk]; [by rewrite Hrs | done |].
    rewrite Hk in Hacc. discriminate.
Qed.

Lemma shouldRejectEmail_policy (a : AuthResult) :
  AuthPolicy cfg <> "reject" -> shouldRejectEmail cfg a = false.
Proof.
  intros Hp. unfold shouldRejectEmail.
  destruct (String.eqb_spec (AuthPolicy cfg) "reject"); [done | reflexivity].
Qed.

(** A complete body one byte below the limit is accepted when the policy
    does not reject. *)
Lemma Data_accepts_limit_minus_one (s : Session) (r : Reader) (w : W) :
  recipients s <> [] ->
  len (rd_data r) = MaxEmailSize cfg - 1 ->
  rd_fails r = false ->
  AuthPolicy cfg <> "reject" ->
  value_of (Data cfg s r w) = None.
Proof.
  intros Hrcpt Hlen Hok Hpol.
  unfold Data, receive.
  destruct (recipients s) as [|r0 rs]; [done|].
  rewrite readAllLimited_short by lia. rewrite Hok.
  unfold bind, emit, ret.
  destruct (Z.leb_spec (MaxEmailSize cfg) (len (rd_data r))); [lia|].
  destruct (ValidateSPF cfg || ValidateDKIM cfg || ValidateDMARC cfg).
  - destruct (validateEmailAuth cfg s (rd_data r) w) as [[w1 t1] a].
    rewrite shouldRejectEmail_policy by done.
    destruct (deliverAll cfg s (rd_data r) (r0 :: rs) w1) as [[w2 t2] u].
    reflexivity.
  - destruct (deliverAll cfg s (rd_data r) (r0 :: rs) w) as [[w2 t2] u].
    reflexivity.
Qed.

(** C10. In a transaction whose body is exactly [MaxEmailSize] bytes long
    the data phase answers with the permanent size-limit error 552: the
    check is [len(rawEmail) >= MaxEmailSize] and the limited reader cuts a
    longer stream to that length.  So every body the service accepts has at
    most [MaxEmailSize - 1] bytes, and a body of that length is accepted. *)
Theorem data_limit_is_exclusive :
  forall (s : Session) (r : Reader) (w : W),
    recipients s <> [] ->
    (len (rd_data r) = MaxEmailSize cfg ->
       exists k : nat,
         Data cfg s r w =
           (w, [EvReadBody k],
            Some {| Code := 552; Message := "Email exceeds maximum size (20MB)" |})
         /\ permanent {| Code := 552; Message := "Email exceeds maximum size (20MB)" |})
    /\ (0 <= MaxEmailSize cfg <= len (rd_data r) ->
        exists raw : string,
          readAllLimited r (MaxEmailSize cfg) = (raw, false)
          /\ len raw = MaxEmailSize cfg)
    /\ (value_of (Data cfg s r w) = None -> len (rd_data r) <= MaxEmailSize cfg - 1)
    /\ (len (rd_data r) = MaxEmailSize cfg - 1 -> rd_fails r = false ->
        AuthPolicy cfg <> "reject" -> value_of (Data cfg s r w) = None).
Proof.
  intros s r w Hrcpt. split; [|split; [|split]].
  - intros Heq. destruct (Data_at_or_over_limit s r w Hrcpt) as [k Hk]; [lia|].
    exists k. split; [exact Hk | unfold permanent; cbn; lia].
  - intros Hmax. unfold readAllLimited.
    destruct (Z.leb_spec (MaxEmailSize cfg) 0) as [Hle|Hgt].
    + exists EmptyString. split; [reflexivity | unfold len; cbn; lia].
    + destruct (Z.ltb_spec (len (rd_data r)) (MaxEmailSize cfg)) as [Hlt|Hge]; [lia|].
      eexists. split; [reflexivity | rewrite len_slice_0; lia].
  - apply Data_accepts_below_limit.
  - by apply Data_accepts_limit_minus_one.
Qed.

(** [Rcpt] answers 451 whenever the validation call fails: the request
    cannot be built, the exchange fails, the authority answers with another
    status than 200, or the answer cannot be decoded. *)
Lemma ValidateAddress_failure (baseURL address : string) (w : W) :
  (forall body,
     (http_Do_get (baseURL +:+ "/internal/v1/email/" +:+ address +:+ "/") w).2
       = HttpResponse 200 body ->
     json_decode_validation body = None) ->
  exists msg, value_of (Client.ValidateAddress baseURL address w) = Err msg.
Proof.
  intros Hbad. unfold Client.ValidateAddress, bind, call, ret. cbv zeta.
  destruct (http_NewRequest_ok _); cbn [negb]; [|by eexists].
  destruct (http_Do_get _ w) as [w1 reply].
  destruct reply as [|status body]; [by eexists|].
  destruct (Z.eqb_spec status 200) as [->|Hne]; cbn [negb]; [|by eexists].
  rewrite (Hbad body) by reflexivity. by eexists.
Qed.

(** C3. The outcome of a RCPT command is decided by the validation result:
    a failed validation call (transport or authority error) gives the
    temporary code 451; an answer that the address is not valid (does not
    exist) gives the permanent code 550; an answer that it exists but is
    expired gives the permanent code 550; in these three cases the accepted
    list is unchanged.  Otherwise the command succeeds and the address is
    appended to the accepted list with the quota-used and quota-limit of
    the answer. *)
Theorem rcpt_outcome_by_validation :
  forall (to_ : string) (s : Session) (w : W),
    exists (w1 : W) (tr : list Event) (checked : Result ValidationResponse),
      Client.ValidateAddress (APIServiceURL cfg) (extractEmailAddress to_) w
        = (w1, tr, checked)
      /\ match checked with
         | Err _ =>
           exists e, Rcpt cfg to_ s w = (w1, tr, (s, Some e))
                     /\ Code e = 451 /\ temporary e
         | Ok v =>
           if negb (Valid v) then
             exists e, Rcpt cfg to_ s w = (w1, tr, (s, Some e))
                       /\ Code e = 550 /\ permanent e
           else if Expired v then
             exists e, Rcpt cfg to_ s w = (w1, tr, (s, Some e))
                       /\ Code e = 550 /\ permanent e
           else
             Rcpt cfg to_ s w =
               (w1, tr,
                ({| from := from s;
                    recipients := recipients s ++
                      [{| address := extractEmailAddress to_;
                          storageUsed := StorageUsed v;
                          storageQuota := StorageQuota v |}];
                    clientIP := clientIP s |}, None))
         end.
Proof.
  intros to_ s w.
  destruct (Client.ValidateAddress (APIServiceURL cfg) (extractEmailAddress to_) w)
    as [[w1 tr] checked] eqn:Hval.
  exists w1, tr, checked. split; [reflexivity|].
  unfold Rcpt, bind. rewrite Hval.
  destruct checked as [v|msg].
  - destruct (Valid v); cbn [negb]; [destruct (Expired v)|];
      unfold ret, smtpError; rewrite app_nil_r;
      try (eexists; split; [reflexivity|]; unfold temporary, permanent; cbn; lia).
    reflexivity.
  - unfold ret, smtpError. rewrite app_nil_r.
    eexists; split; [reflexivity|]. unfold temporary; cbn; lia.
Qed.

(** [shouldRejectEmail] answers [true] exactly when the policy is
    ["reject"] and an enabled check failed hard. *)
Lemma shouldRejectEmail_iff :
  forall (a : AuthResult),
    (shouldRejectEmail cfg a = true <->
       AuthPolicy cfg = "reject"
       /\ ((ValidateSPF cfg = true
            /\ (SPFResult a = "fail" \/ SPFResult a = "permerror"))
           \/ (ValidateDKIM cfg = true /\ DKIMResult a = "fail")
           \/ (ValidateDMARC cfg = true /\ DMARCResult a = "fail")))
    /\ (AuthPolicy cfg <> "reject" -> shouldRejectEmail cfg a = false).
Proof.
  intros a. split; [|apply shouldRejectEmail_policy].
  unfold shouldRejectEmail.
  destruct (String.eqb_spec (AuthPolicy cfg) "reject") as [Hp|Hp]; cbn [negb].
  2: { split; [done | intros [? _]; done]. }
  destruct (ValidateSPF cfg), (ValidateDKIM cfg), (ValidateDMARC cfg);
    destruct (String.eqb_spec (SPFResult a) "fail");
    destruct (String.eqb_spec (SPFResult a) "permerror");
    destruct (String.eqb_spec (DKIMResult a) "fail");
    destruct (String.eqb_spec (DMARCResult a) "fail");
    cbn [andb orb]; split; intros Hx; try done; try tauto;
    try (destruct Hx as [_ Hx]; intuition congruence).
Qed.

(** C6. In a transaction with at least one accepted recipient whose body
    was read completely and is below the size ceiling, the data phase
    rejects the message (error 550, authentication failed) if and only if
    the policy is [reject] and, for the verdicts computed for this message,
    SPF checking is enabled and the SPF verdict is [fail] or [permerror],
    or DKIM checking is enabled and the DKIM verdict is [fail], or DMARC
    checking is enabled and the DMARC verdict is [fail].  Otherwise it
    returns no error; under any other policy it returns no error whatever
    the verdicts are.  A rejection leaves nothing behind but the read and
    the lookups of the checks. *)
Theorem reject_iff_policy_and_hard_failure :
  forall (s : Session) (r : Reader) (w : W) (raw : string),
    recipients s <> [] ->
    readAllLimited r (MaxEmailSize cfg) = (raw, false) ->
    len raw < MaxEmailSize cfg ->
    let a := value_of (validateEmailAuth cfg s raw w) in
    let answer := value_of (Data cfg s r w) in
    let refusal :=
      Some {| Code := 550;
              Message := "Email rejected: authentication failed (SPF/DKIM/DMARC)" |} in
    (answer = refusal <->
       AuthPolicy cfg = "reject"
       /\ ((ValidateSPF cfg = true
            /\ (SPFResult a = "fail" \/ SPFResult a = "permerror"))
           \/ (ValidateDKIM cfg = true /\ DKIMResult a = "fail")
           \/ (ValidateDMARC cfg = true /\ DMARCResult a = "fail")))
    /\ (answer = refusal \/ answer = None)
    /\ (AuthPolicy cfg <> "reject" -> answer = None)
    /\ (answer = refusal ->
        Data cfg s r w =
          (world_of (validateEmailAuth cfg s raw w),
           EvReadBody (String.length raw) :: trace_of (validateEmailAuth cfg s raw w),
           refusal)).
Proof.
  intros s r w raw Hrcpt Hread Hlen a answer refusal.
  pose proof (proj1 (shouldRejectEmail_iff a)) as Hiff.
  pose proof (shouldRejectEmail_policy a) as Hpol.
  subst answer a. unfold Data, receive.
  destruct (recipients s) as [|r0 rs] eqn:Hrs; [done|].
  rewrite Hread. unfold bind, emit, ret.
  destruct (Z.leb_spec (MaxEmailSize cfg) (len raw)); [lia|].
  destruct (ValidateSPF cfg || ValidateDKIM cfg || ValidateDMARC cfg) eqn:Hon.
  - destruct (validateEmailAuth cfg s raw w) as [[w1 t1] a].
    unfold value_of, world_of, trace_of in *. cbn [fst snd] in *.
    destruct (shouldRejectEmail cfg a) eqn:Hrej.
    + cbn [fst snd app]. rewrite app_nil_r.
      split; [split; [intros _; apply Hiff; reflexivity | intros _; reflexivity]|].
      split; [left; reflexivity|]. split; [|intros _; by rewrite ?app_nil_r].
      intros Hp. specialize (Hpol Hp). discriminate.
    + destruct (deliverAll cfg s raw (r0 :: rs) w1) as [[w2 t2] u]. cbn [fst snd].
      split; [split; [discriminate | intros Hc; apply Hiff in Hc; discriminate]|].
      split; [right; reflexivity|]. split; [intros _; reflexivity | discriminate].
  - apply orb_false_iff in Hon as [Hon Hdmarc].
    apply orb_false_iff in Hon as [Hspf Hdkim].
    destruct (deliverAll cfg s raw (r0 :: rs) w) as [[w2 t2] u].
    unfold value_of. cbn [fst snd].
    split; [split; [discriminate|]|].
    + intros [_ [[Hc _]|[[Hc _]|[Hc _]]]]; congruence.
    + split; [right; reflexivity|]. split; [intros _; reflexivity | discriminate].
Qed.

(** C5. With DMARC checking enabled and a non-empty sender domain, the
    policy of the sender domain is looked up once, as the last step, and
    the DMARC verdict follows from the answer: [none] when no policy is
    published, [temperror] for any other lookup error, and with a policy
    [pass] when the SPF verdict or the DKIM verdict is [pass] and [fail]
    when neither is. *)
Theorem dmarc_verdict_from_lookup :
  forall (s : Session) (rawEmail : string) (w : W),
    ValidateDMARC cfg = true ->
    extractDomain (from s) <> "" ->
    let run := validateEmailAuth cfg s rawEmail w in
    let result := value_of run in
    exists (w2 : W) (pre : list Event) (answer : DmarcOutcome),
      dmarc_Lookup (extractDomain (from s)) w2 = (world_of run, answer)
      /\ trace_of run = pre ++ [EvDmarcLookup (extractDomain (from s)) answer]
      /\ DMARCResult result =
         match answer with
         | DmarcNoPolicy => "none"
         | DmarcError _ => "temperror"
         | DmarcRecord _ =>
           if String.eqb (SPFResult result) "pass"
              || String.eqb (DKIMResult result) "pass"
           then "pass" else "fail"
         end.
Proof.
  intros s rawEmail w Hon Hdom run result. subst result run.
  unfold validateEmailAuth, bind.
  destruct (spfPhase cfg s _ _ w) as [[w1 t1] r1].
  destruct (dkimPhase cfg rawEmail r1 w1) as [[w2 t2] r2].
  unfold dmarcPhase, bind, call_out, ret. rewrite Hon.
  destruct (String.eqb_spec (extractDomain (from s)) "") as [|_]; [done|].
  cbn [andb negb].
  destruct (dmarc_Lookup (extractDomain (from s)) w2) as [w3 answer] eqn:Hlook.
  exists w2, (t1 ++ t2), answer.
  destruct answer as [policy| |msg];
    unfold world_of, trace_of, value_of; cbn [fst snd set_DMARC DMARCResult SPFResult DKIMResult];
    rewrite app_nil_r, app_assoc; repeat split; done.
Qed.


End WithEnv.

(** *** The theorems at work on the concrete scenarios *)

Section Witnesses.
Import Scenario.

Lemma data_no_valid_recipients_witness :
  recipients noRecipients = []
  /\ Data (H := upEnv) logOnly noRecipients tenBytes tt =
       (tt, [], Some {| Code := 554; Message := "No valid recipients" |}).
Proof.
  split; [reflexivity|].
  apply (data_no_valid_recipients (H := upEnv) logOnly noRecipients tenBytes tt).
  reflexivity.
Defined.

Lemma data_message_too_large_witness :
  MaxEmailSize logOnly < len (rd_data seventeenBytes)
  /\ exists (k : nat) (e : SMTPError),
       Data (H := upEnv) logOnly twoRecipients seventeenBytes tt
         = (tt, [EvReadBody k], Some e)
       /\ Code e = 552
       /\ Message e = "Email exceeds maximum size (20MB)"
       /\ permanent e.
Proof.
  split; [reflexivity|].
  apply (data_message_too_large (H := upEnv) logOnly twoRecipients seventeenBytes tt);
    [discriminate | reflexivity].
Defined.

Lemma data_limit_is_exclusive_witness :
  len (rd_data sixteenBytes) = MaxEmailSize logOnly
  /\ (exists k : nat,
        Data (H := upEnv) logOnly twoRecipients sixteenBytes tt =
          (tt, [EvReadBody k],
           Some {| Code := 552; Message := "Email exceeds maximum size (20MB)" |}))
  /\ value_of (Data (H := upEnv) logOnly twoRecipients
                    {| rd_data := "0123456789abcde"; rd_fails := false |} tt) = None.
Proof.
  split; [reflexivity|]. split.
  - destruct (data_limit_is_exclusive (H := upEnv) logOnly twoRecipients sixteenBytes tt)
      as (Hexact & _); [discriminate|].
    destruct (Hexact eq_refl) as (k & Hk & _). exists k. exact Hk.
  - destruct (data_limit_is_exclusive (H := upEnv) logOnly twoRecipients
                {| rd_data := "0123456789abcde"; rd_fails := false |} tt)
      as (_ & _ & _ & Hbelow); [discriminate|].
    apply Hbelow; [reflexivity | reflexivity | discriminate].
Defined.

Lemma reject_iff_policy_and_hard_failure_witness :
  recipients twoRecipients <> []
  /\ readAllLimited tenBytes (MaxEmailSize rejecting) = ("0123456789", false)
  /\ len "0123456789" < MaxEmailSize rejecting
  /\ value_of (Data (H := upEnv) rejecting twoRecipients tenBytes tt) =
       Some {| Code := 550;
               Message := "Email rejected: authentication failed (SPF/DKIM/DMARC)" |}
  /\ value_of (Data (H := upEnv) logOnly twoRecipients tenBytes tt) = None.
Proof.
  assert (Hrcpt : recipients twoRecipients <> []) by discriminate.
  split; [exact Hrcpt|]. split; [reflexivity|]. split; [reflexivity|]. split.
  - apply (proj1 (reject_iff_policy_and_hard_failure (H := upEnv) rejecting
                    twoRecipients tenBytes tt "0123456789"
                    Hrcpt eq_refl eq_refl)).
    split; [reflexivity|]. left. split; [reflexivity|]. left. reflexivity.
  - apply (proj1 (proj2 (proj2 (reject_iff_policy_and_hard_failure (H := upEnv) logOnly
                    twoRecipients tenBytes tt "0123456789"
                    Hrcpt eq_refl eq_refl)))).
    discriminate.
Defined.

Lemma dmarc_verdict_from_lookup_witness :
  ValidateDMARC logOnly = true
  /\ extractDomain (from twoRecipients) = "example.org"
  /\ DMARCResult (value_of (validateEmailAuth (H := upEnv) logOnly twoRecipients
                                              "0123456789" tt)) = "fail".
Proof.
  split; [reflexivity|]. split; [reflexivity|].
  destruct (dmarc_verdict_from_lookup (H := upEnv) logOnly twoRecipients "0123456789" tt)
    as (w2 & pre & answer & Hlook & _ & Hverdict); [reflexivity | discriminate |].
  rewrite Hverdict. injection Hlook as _ <-. reflexivity.
Defined.

End Witnesses.

End SmtpProps.

(** *** The rate limiter *)

Module RateLimitProps.
Import RateLimit.

Lemma validTimestamps_app (start : Z) (l1 l2 : list Z) :
  validTimestamps start (l1 ++ l2) = validTimestamps start l1 ++ validTimestamps start l2.
Proof. unfold validTimestamps. apply List.filter_app. Qed.

(** Cutting at an earlier start and then at a later one is cutting at the
    later one. *)
Lemma validTimestamps_twice (start1 start2 : Z) (l : list Z) :
  start1 <= start2 ->
  validTimestamps start2 (validTimestamps start1 l) = validTimestamps start2 l.
Proof.
  intros Hle. unfold validTimestamps, After.
  induction l as [|ts l IH]; cbn [List.filter]; [done|].
  destruct (Z.ltb_spec start1 ts) as [H1|H1]; cbn [List.filter].
  - by rewrite IH.
  - rewrite IH. destruct (Z.ltb_spec start2 ts); [lia | done].
Qed.

Lemma validTimestamps_length (start : Z) (l : list Z) :
  (length (validTimestamps start l) <= length l)%nat.
Proof. unfold validTimestamps. apply List.filter_length_le. Qed.

Lemma serve_bounded (c : Call) (rl : RateLimiter) :
  bounded rl -> bounded (serve c rl).
Proof.
  intros Hb. destruct c as [ip now|now]; cbn [serve].
  - unfold isLimited.
    destruct (Z.leb_spec (limit rl)
                (Z.of_nat (length (validTimestamps (now - window rl)
                   match requests rl !! ip with Some t => t | None => [] end))))
      as [Hfull|Hroom]; cbn [snd]; [done|].
    intros ip' l. cbn [requests set_requests limit].
    rewrite lookup_insert. case_decide; [|apply Hb].
    intros [= <-]. split; [by destruct (validTimestamps _ _)|].
    rewrite length_app. cbn [length]. lia.
  - intros ip l. unfold Cleanup. cbn [requests set_requests limit].
    rewrite lookup_omap. destruct (requests rl !! ip) as [l0|] eqn:Hl0; [|done].
    cbn. destruct (Nat.eqb_spec (length (validTimestamps (now - window rl) l0)) 0)
      as [Hz|Hnz]; [done|].
    intros [= <-]. split; [by intros Hnil; rewrite Hnil in Hnz|].
    destruct (Hb ip l0 Hl0) as [_ Hlen].
    pose proof (validTimestamps_length (now - window rl) l0). lia.
Qed.

Lemma serve_limit (c : Call) (rl : RateLimiter) : limit (serve c rl) = limit rl.
Proof.
  destruct c as [ip now|now]; cbn [serve]; [|reflexivity].
  unfold isLimited. by destruct (limit rl <=? _).
Qed.

Lemma serve_window (c : Call) (rl : RateLimiter) : window (serve c rl) = window rl.
Proof.
  destruct c as [ip now|now]; cbn [serve]; [|reflexivity].
  unfold isLimited. by destruct (limit rl <=? _).
Qed.

Lemma serveAll_bounded (calls : list Call) : forall rl,
  bounded rl -> bounded (serveAll calls rl) /\ limit (serveAll calls rl) = limit rl.
Proof.
  unfold serveAll.
  induction calls as [|c rest IH]; intros rl Hb; cbn [fold_left]; [done|].
  destruct (IH (serve c rl)) as [Hb' Hl]; [by apply serve_bounded|].
  split; [done|]. by rewrite Hl, serve_limit.
Qed.

(** X1. Whatever requests and sweeps a new limiter has served, it keeps for
    no IP an empty list, and for no IP more timestamps than the limit. *)
Theorem limiter_entries_bounded :
  forall (requestsPerMinute : Z) (calls : list Call) (ip : string) (l : list Z),
    requests (serveAll calls (NewRateLimiter requestsPerMinute)) !! ip = Some l ->
    l <> [] /\ Z.of_nat (length l) <= requestsPerMinute.
Proof.
  intros rpm calls ip l Hl.
  destruct (serveAll_bounded calls (NewRateLimiter rpm)) as [Hb Hlim].
  { intros ip' l'. cbn. by rewrite lookup_empty. }
  destruct (Hb ip l Hl) as [Hne Hlen]. split; [done|].
  by rewrite Hlim in Hlen.
Qed.

Lemma limiter_entries_bounded_witness :
  requests (serveAll burst (NewRateLimiter 2)) !! "192.0.2.7" = Some [10; 20]
  /\ ([10; 20] <> [] /\ Z.of_nat (length [10; 20]) <= 2).
Proof.
  assert (Hrun : requests (serveAll burst (NewRateLimiter 2)) !! "192.0.2.7"
                 = Some [10; 20]) by (vm_compute; reflexivity).
  split; [exact Hrun|].
  exact (limiter_entries_bounded 2 burst "192.0.2.7" [10; 20] Hrun).
Defined.

Lemma serveAll_window (calls : list Call) : forall rl,
  window (serveAll calls rl) = window rl.
Proof.
  unfold serveAll.
  induction calls as [|c rest IH]; intros rl; cbn [fold_left]; [done|].
  by rewrite IH, serve_window.
Qed.

Lemma isLimited_decision (ip : string) (now : Z) (rl : RateLimiter) :
  (isLimited ip now rl).1 =
    (limit rl <=? Z.of_nat (length (validTimestamps (now - window rl) (timestampsOf ip rl)))).
Proof.
  unfold isLimited, timestampsOf. by destruct (limit rl <=? _).
Qed.

Lemma timestampsOf_Cleanup (ip : string) (now : Z) (rl : RateLimiter) :
  timestampsOf ip (Cleanup now rl)
    = validTimestamps (now - window rl) (timestampsOf ip rl).
Proof.
  unfold timestampsOf, Cleanup. cbn [requests set_requests].
  rewrite lookup_omap. destruct (requests rl !! ip) as [l|]; cbn; [|done].
  destruct (Nat.eqb_spec (length (validTimestamps (now - window rl) l)) 0) as [Hz|Hnz];
    [|done].
  apply nil_length_inv in Hz. by rewrite Hz.
Qed.

Lemma timestampsOf_isLimited (ip0 ip : string) (now : Z) (rl : RateLimiter) :
  timestampsOf ip (isLimited ip0 now rl).2 =
    if (isLimited ip0 now rl).1 then timestampsOf ip rl
    else if String.eqb ip0 ip
         then validTimestamps (now - window rl) (timestampsOf ip rl) ++ [now]
         else timestampsOf ip rl.
Proof.
  unfold isLimited. fold (timestampsOf ip0 rl).
  destruct (limit rl <=? _); cbn [fst snd]; [done|].
  unfold timestampsOf at 1. cbn [requests set_requests].
  rewrite lookup_insert. destruct (String.eqb_spec ip0 ip) as [->|Hne].
  - by rewrite decide_True.
  - by rewrite decide_False.
Qed.

(** One call keeps the kept timestamps in step with the accepted ones, as
    far as any later window can tell. *)
Lemma serve_tracks (c : Call) (rl : RateLimiter) (past : string -> list Z) (T : Z) :
  (forall ip T', T <= T' ->
     validTimestamps (T' - window rl) (timestampsOf ip rl)
       = validTimestamps (T' - window rl) (past ip)) ->
  T <= clock c ->
  forall ip T', clock c <= T' ->
    validTimestamps (T' - window rl) (timestampsOf ip (serve c rl))
      = validTimestamps (T' - window rl) (past ip ++ accepted ip [c] rl).
Proof.
  intros Hpast Hclock ip T' HT'.
  destruct c as [ip0 now|now]; cbn [clock serve accepted] in *.
  - rewrite timestampsOf_isLimited.
    destruct (isLimited ip0 now rl).1; cbn [negb].
    + rewrite andb_false_r, app_nil_r. apply Hpast. lia.
    + rewrite andb_true_r. destruct (String.eqb ip0 ip).
      * rewrite !validTimestamps_app, validTimestamps_twice by lia.
        by rewrite Hpast by lia.
      * rewrite app_nil_r. apply Hpast. lia.
  - rewrite app_nil_r, timestampsOf_Cleanup, validTimestamps_twice by lia.
    apply Hpast. lia.
Qed.

Lemma serveAll_tracks (calls : list Call) :
  forall (rl : RateLimiter) (past : string -> list Z) (T : Z) (ip : string) (T' : Z),
    (forall ip T', T <= T' ->
       validTimestamps (T' - window rl) (timestampsOf ip rl)
         = validTimestamps (T' - window rl) (past ip)) ->
    monotone T (map clock calls ++ [T']) ->
    validTimestamps (T' - window rl) (timestampsOf ip (serveAll calls rl))
      = validTimestamps (T' - window rl) (past ip ++ accepted ip calls rl).
Proof.
  induction calls as [|c rest IH]; intros rl past T ip T' Hpast Hmono.
  - cbn in Hmono. cbn [serveAll fold_left accepted]. rewrite app_nil_r.
    apply Hpast. lia.
  - cbn [map app monotone] in Hmono. destruct Hmono as [Hc Hrest].
    change (serveAll (c :: rest) rl) with (serveAll rest (serve c rl)).
    rewrite <- (serve_window c rl).
    rewrite (IH (serve c rl) (fun ip => past ip ++ accepted ip [c] rl) (clock c));
      [| |done].
    + rewrite <- app_assoc. do 2 f_equal.
      destruct c as [ip0 now|now]; cbn [accepted]; [|done].
      by destruct (String.eqb ip0 ip && negb (isLimited ip0 now rl).1).
    + intros ip1 T1 HT1. rewrite serve_window. by apply (serve_tracks c rl past T).
Qed.

(** X2. On a clock that does not go backwards, after any requests and
    sweeps a new limiter refuses a request exactly when the requests of the
    same IP that it accepted within the last minute are as many as the
    limit, or more. *)
Theorem limiter_is_sliding_window :
  forall (requestsPerMinute : Z) (calls : list Call) (ip : string) (start now : Z),
    monotone start (map clock calls ++ [now]) ->
    (isLimited ip now (serveAll calls (NewRateLimiter requestsPerMinute))).1 =
      (requestsPerMinute <=?
         Z.of_nat (length (validTimestamps (now - Minute)
                             (accepted ip calls (NewRateLimiter requestsPerMinute))))).
Proof.
  intros rpm calls ip start now Hmono.
  rewrite isLimited_decision.
  destruct (serveAll_bounded calls (NewRateLimiter rpm)) as [_ ->].
  { intros ip' l'. cbn. by rewrite lookup_empty. }
  rewrite serveAll_window.
  by rewrite (serveAll_tracks calls (NewRateLimiter rpm) (fun _ => []) start ip now).
Qed.

Lemma limiter_is_sliding_window_witness :
  monotone 0 (map clock burst ++ [60000000015])
  /\ accepted "192.0.2.7" burst (NewRateLimiter 2) = [10; 20]
  /\ (isLimited "192.0.2.7" 60000000015 (serveAll burst (NewRateLimiter 2))).1 = false.
Proof.
  assert (Hmono : monotone 0 (map clock burst ++ [60000000015]))
    by (cbn; repeat split; lia).
  split; [exact Hmono|]. split; [reflexivity|].
  rewrite (limiter_is_sliding_window 2 burst "192.0.2.7" 0 60000000015 Hmono).
  reflexivity.
Defined.

(** X3. A sweep does not change what the limiter answers afterwards: a
    request at an instant not before the sweep is refused after the sweep
    exactly when it would have been refused without it, and when accepted
    leaves the same timestamps for its IP. *)
Theorem cleanup_keeps_decisions :
  forall (rl : RateLimiter) (ip : string) (swept now : Z),
    swept <= now ->
    (isLimited ip now (Cleanup swept rl)).1 = (isLimited ip now rl).1
    /\ ((isLimited ip now rl).1 = false ->
        timestampsOf ip (isLimited ip now (Cleanup swept rl)).2
          = timestampsOf ip (isLimited ip now rl).2).
Proof.
  intros rl ip swept now Hle.
  assert (Hcut : validTimestamps (now - window rl) (timestampsOf ip (Cleanup swept rl))
                 = validTimestamps (now - window rl) (timestampsOf ip rl)).
  { rewrite timestampsOf_Cleanup. apply validTimestamps_twice. lia. }
  assert (Hdec : (isLimited ip now (Cleanup swept rl)).1 = (isLimited ip now rl).1).
  { rewrite !isLimited_decision. change (window (Cleanup swept rl)) with (window rl).
    by rewrite Hcut. }
  split; [exact Hdec|]. intros Hacc.
  rewrite !timestampsOf_isLimited, Hdec, Hacc, String.eqb_refl.
  change (window (Cleanup swept rl)) with (window rl). by rewrite Hcut.
Qed.

Lemma cleanup_keeps_decisions_witness :
  40 <= 50
  /\ (isLimited "192.0.2.7" 50 (Cleanup 40 (serveAll burst (NewRateLimiter 2)))).1 = true.
Proof.
  split; [lia|].
  rewrite (proj1 (cleanup_keeps_decisions (serveAll burst (NewRateLimiter 2))
                    "192.0.2.7" 40 50 ltac:(lia))).
  vm_compute. reflexivity.
Defined.

End RateLimitProps.

(** *** More on the hub: rooms, slow subscribers, leaving twice *)

Module HubFacts.
Import Hub.

Lemma hub_runs_without_panic_witness :
  NoDup (registered oneDropped) /\ is_Some (run oneDropped NewHub).
Proof.
  assert (Hnd : NoDup (registered oneDropped)).
  { cbn. apply NoDup_cons. split; [|apply NoDup_singleton].
    intros Hin. apply list_elem_of_In in Hin. destruct Hin as [Heq|[]].
    discriminate Heq. }
  split; [exact Hnd|]. exact (HubProps.hub_runs_without_panic oneDropped Hnd).
Defined.

Lemma drop_client_set_room addr cs c (m : gmap string (gset Client)) :
  drop_client addr cs c m = (cs ∖ {[c]}, set_room addr (cs ∖ {[c]}) m).
Proof. reflexivity. Qed.

Lemma set_room_lookup addr cs (m : gmap string (gset Client)) a :
  set_room addr cs m !! a =
    if decide (addr = a) then (if decide (size cs = 0%nat) then None else Some cs)
    else m !! a.
Proof.
  unfold set_room. destruct (decide (size cs = 0%nat)).
  - rewrite lookup_delete. by case_decide.
  - rewrite lookup_insert. by case_decide.
Qed.

Lemma set_room_twice addr cs1 cs2 (m : gmap string (gset Client)) :
  set_room addr cs2 (set_room addr cs1 m) = set_room addr cs2 m.
Proof.
  apply map_eq. intros a. rewrite !set_room_lookup. by case_decide.
Qed.

Lemma set_room_own addr cs (m : gmap string (gset Client)) :
  own_rooms m -> (forall c, c ∈ cs -> address c = addr) ->
  own_rooms (set_room addr cs m).
Proof.
  intros Hm Hcs a s c. rewrite set_room_lookup. case_decide as Ha.
  - case_decide; [done|]. intros [= <-] Hc. subst a. by apply Hcs.
  - apply Hm.
Qed.

Lemma register_own c h h' :
  own_rooms (clients h) -> register c h = Some h' -> own_rooms (clients h').
Proof.
  intros Hown [= <-] a s c'. cbn [clients].
  rewrite lookup_insert. case_decide as Ha; [|apply Hown].
  intros [= <-] Hin. subst a.
  apply elem_of_union in Hin as [Hin|Hin]; [set_solver|].
  destruct (clients h !! address c) as [cs|] eqn:Hcs; [|set_solver].
  by apply (Hown _ _ _ Hcs).
Qed.

Lemma unregister_own c h h' :
  own_rooms (clients h) -> unregister c h = Some h' -> own_rooms (clients h').
Proof.
  intros Hown. unfold unregister.
  destruct (clients h !! address c) as [cs|] eqn:Hcs; [|by intros [= <-]].
  destruct (decide (c ∈ cs)); [|by intros [= <-]].
  destruct (decide (c ∈ send_closed h)); [done|].
  intros [= <-].
  change (own_rooms (set_room (address c) (cs ∖ {[c]}) (clients h))).
  apply set_room_own; [done|].
  intros c' [Hc' _]%elem_of_difference. by apply (Hown _ _ _ Hcs).
Qed.

Lemma broadcast_loop_own addr full todo : forall cs h h',
  own_rooms (clients h) -> (forall c, c ∈ cs -> address c = addr) ->
  broadcast_loop addr full todo cs h = Some h' -> own_rooms (clients h').
Proof.
  induction todo as [|c rest IH]; intros cs h h' Hown Hcs; cbn [broadcast_loop].
  - by intros [= <-].
  - destruct (decide (c ∈ send_closed h)); [done|].
    destruct (full c); [|by apply IH].
    rewrite drop_client_set_room. apply IH; cbn [clients].
    + apply set_room_own; [done|]. intros c' [Hc' _]%elem_of_difference. by apply Hcs.
    + intros c' [Hc' _]%elem_of_difference. by apply Hcs.
Qed.

Lemma run_own msgs : forall h h',
  own_rooms (clients h) -> run msgs h = Some h' -> own_rooms (clients h').
Proof.
  induction msgs as [|msg rest IH]; intros h h' Hown; cbn [run].
  - by intros [= <-].
  - destruct (step msg h) as [h1|] eqn:Hstep; [|done].
    apply IH. destruct msg as [c|c|addr ok full]; cbn [step] in Hstep.
    + by eapply register_own.
    + by eapply unregister_own.
    + unfold broadcast in Hstep.
      destruct (clients h !! addr) as [cs|] eqn:Hcs; [|by injection Hstep as <-].
      destruct ok; [|by injection Hstep as <-].
      eapply broadcast_loop_own; [done | | done].
      intros c Hc. by apply (Hown _ _ _ Hcs).
Qed.

(** X5. After any sequence of register, unregister and broadcast steps from
    the empty hub, a client found in the room of an address is a client of
    that address: an event for one address is never sent to a subscriber of
    another. *)
Theorem hub_clients_in_own_room :
  forall (msgs : list HubMsg) (h : HubState),
    run msgs NewHub = Some h ->
    forall (addr : string) (cs : gset Client) (c : Client),
      clients h !! addr = Some cs -> c ∈ cs -> address c = addr.
Proof.
  intros msgs h Hrun. eapply run_own; [|exact Hrun].
  intros a cs c. cbn. by rewrite lookup_empty.
Qed.

Lemma hub_clients_in_own_room_witness :
  exists h : HubState,
    run oneDropped NewHub = Some h
    /\ forall (addr : string) (cs : gset Client) (c : Client),
         clients h !! addr = Some cs -> c ∈ cs -> address c = addr.
Proof.
  eexists. split; [vm_compute; reflexivity|].
  apply (hub_clients_in_own_room oneDropped). vm_compute. reflexivity.
Defined.

(** The loop of a broadcast, as a whole: the clients with a full queue
    among those visited are closed and taken out of the room. *)
Lemma broadcast_loop_outcome addr full todo : forall cs h h',
  broadcast_loop addr full todo cs h = Some h' ->
  let gone : gset Client := list_to_set (List.filter full todo) in
  clients h' = (if decide (List.filter full todo = []) then clients h
                else set_room addr (cs ∖ gone) (clients h))
  /\ send_closed h' = gone ∪ send_closed h.
Proof.
  induction todo as [|c rest IH]; intros cs h h'; cbn [broadcast_loop List.filter].
  - intros [= <-]. cbn. split; [done | set_solver].
  - destruct (decide (c ∈ send_closed h)); [done|].
    destruct (full c) eqn:Hfull.
    + rewrite drop_client_set_room. intros Hloop.
      destruct (IH _ _ _ Hloop) as [Hm Hc]. cbn [clients send_closed] in Hm, Hc.
      cbn zeta. rewrite decide_False by done. cbn [list_to_set].
      split; [|rewrite Hc; set_solver].
      rewrite Hm. case_decide as Hrest.
      * rewrite Hrest. cbn [list_to_set]. f_equal. set_solver.
      * rewrite set_room_twice. f_equal. set_solver.
    + apply IH.
Qed.

Lemma gone_slow_ones full (cs : gset Client) :
  list_to_set (List.filter full (elements cs)) = slow_ones full cs.
Proof.
  apply set_eq. intros c. unfold slow_ones.
  rewrite elem_of_list_to_set, list_elem_of_In, List.filter_In,
    <- list_elem_of_In, elem_of_elements, elem_of_filter. tauto.
Qed.

(** X6. A broadcast to an address with subscribers takes out of the room
    exactly the subscribers whose queue is full, and closes their queues;
    the others stay, the room is deleted when none stays, and the rooms of
    the other addresses are untouched. *)
Theorem broadcast_drops_slow_subscribers :
  forall (addr : string) (queue_full : Client -> bool) (h h' : HubState)
         (cs : gset Client),
    clients h !! addr = Some cs ->
    cs <> ∅ ->
    broadcast addr true queue_full h = Some h' ->
    clients h' !! addr =
      (if decide (fast_ones queue_full cs = ∅) then None
       else Some (fast_ones queue_full cs))
    /\ (forall a, a <> addr -> clients h' !! a = clients h !! a)
    /\ send_closed h' = slow_ones queue_full cs ∪ send_closed h.
Proof.
  intros addr full h h' cs Hcs Hne. unfold broadcast. rewrite Hcs.
  intros Hloop. apply broadcast_loop_outcome in Hloop as [Hm Hc].
  rewrite gone_slow_ones in Hm, Hc.
  assert (Hkept : cs ∖ slow_ones full cs = fast_ones full cs).
  { apply set_eq. intros c. unfold slow_ones, fast_ones.
    rewrite elem_of_difference, !elem_of_filter. destruct (full c); naive_solver. }
  rewrite Hkept in Hm. split; [|split; [|done]].
  - rewrite Hm. case_decide as Hnone.
    + assert (Hslow : slow_ones full cs = ∅).
      { rewrite <- gone_slow_ones, Hnone. done. }
      assert (Hall : fast_ones full cs = cs) by (rewrite <- Hkept, Hslow; set_solver).
      rewrite Hall, Hcs. by rewrite decide_False.
    + rewrite set_room_lookup, decide_True by done.
      destruct (decide (size (fast_ones full cs) = 0%nat)) as [Hz|Hnz].
      * apply size_empty_inv, leibniz_equiv in Hz. by rewrite decide_True.
      * rewrite decide_False; [done|]. intros Hempty. apply Hnz.
        rewrite Hempty. apply size_empty.
  - intros a Ha. rewrite Hm. case_decide; [done|].
    rewrite set_room_lookup. by rewrite decide_False.
Qed.

Lemma broadcast_drops_slow_subscribers_witness :
  exists h' : HubState,
    broadcast "alice@tmp" true slowIsFull bothSubscribed = Some h'
    /\ clients h' !! "alice@tmp" =
         (if decide (fast_ones slowIsFull {[slow; fast]} = ∅) then None
          else Some (fast_ones slowIsFull {[slow; fast]}))
    /\ send_closed h' = slow_ones slowIsFull {[slow; fast]} ∪ ∅.
Proof.
  assert (Hroom : clients bothSubscribed !! "alice@tmp" = Some {[slow; fast]})
    by apply lookup_singleton_eq.
  assert (Hne : ({[slow; fast]} : gset Client) <> ∅).
  { intros Hempty. apply (not_elem_of_empty (C := gset Client) slow).
    rewrite <- Hempty. apply elem_of_union_l, elem_of_singleton. reflexivity. }
  eexists. split; [vm_compute; reflexivity|].
  destruct (broadcast_drops_slow_subscribers "alice@tmp" slowIsFull bothSubscribed _
              {[slow; fast]} Hroom Hne ltac:(vm_compute; reflexivity))
    as (Hkept & _ & Hclosed).
  split; [exact Hkept | exact Hclosed].
Defined.

Lemma unregister_removes c h cs :
  clients h !! address c = Some cs -> c ∈ cs -> c ∉ send_closed h ->
  unregister c h =
    Some {| clients := set_room (address c) (cs ∖ {[c]}) (clients h);
            send_closed := {[c]} ∪ send_closed h |}.
Proof.
  intros Hcs Hin Hopen. unfold unregister. rewrite Hcs.
  rewrite decide_True by done. by rewrite decide_False by done.
Qed.

Lemma unregister_absent c h :
  (forall cs, clients h !! address c = Some cs -> c ∉ cs) ->
  unregister c h = Some h.
Proof.
  intros Hout. unfold unregister.
  destruct (clients h !! address c) as [cs|]; [|done].
  by rewrite decide_False by (by apply Hout).
Qed.

(** X7. Leaving twice is leaving once: when a client has been
    unregistered, a second unregister of it finds it in no room and changes
    nothing, so the queue is not closed a second time. *)
Theorem unregister_twice_is_once :
  forall (c : Client) (h h' : HubState),
    unregister c h = Some h' -> unregister c h' = Some h'.
Proof.
  intros c h h' Hfirst. apply unregister_absent. intros cs' Hcs'.
  destruct (clients h !! address c) as [cs|] eqn:Hcs.
  - destruct (decide (c ∈ cs)) as [Hin|Hout].
    + destruct (decide (c ∈ send_closed h)) as [Hclosed|Hopen].
      { unfold unregister in Hfirst. rewrite Hcs in Hfirst.
        rewrite decide_True in Hfirst by done.
        by rewrite decide_True in Hfirst by done. }
      rewrite (unregister_removes c h cs) in Hfirst by done.
      injection Hfirst as <-. cbn [clients] in Hcs'.
      rewrite set_room_lookup, decide_True in Hcs' by done.
      case_decide; [done|]. injection Hcs' as <-. set_solver.
    + rewrite unregister_absent in Hfirst
        by (intros cs0; rewrite Hcs; intros [= <-]; done).
      injection Hfirst as <-. rewrite Hcs in Hcs'. by injection Hcs' as <-.
  - rewrite unregister_absent in Hfirst by (intros cs0; rewrite Hcs; discriminate).
    injection Hfirst as <-. by rewrite Hcs in Hcs'.
Qed.

Lemma unregister_twice_is_once_witness :
  exists h' : HubState,
    unregister slow bothSubscribed = Some h' /\ unregister slow h' = Some h'.
Proof.
  eexists. split; [vm_compute; reflexivity|].
  apply (unregister_twice_is_once slow bothSubscribed). vm_compute. reflexivity.
Defined.

(** X8. A client that joins and leaves again leaves the rooms as they were:
    for a hub without empty rooms and a client that is not yet subscribed
    and whose queue is open, register followed by unregister gives back the
    same clients map (and the room it had created is deleted again). *)
Theorem register_then_unregister_restores_rooms :
  forall (c : Client) (h : HubState),
    rooms_nonempty h ->
    (forall cs, clients h !! address c = Some cs -> c ∉ cs) ->
    c ∉ send_closed h ->
    exists h1 h2 : HubState,
      register c h = Some h1
      /\ unregister c h1 = Some h2
      /\ clients h2 = clients h
      /\ send_closed h2 = {[c]} ∪ send_closed h.
Proof.
  intros c h Hinv Hfresh Hopen.
  set (cs := match clients h !! address c with Some cs => cs | None => ∅ end).
  assert (Hnew : c ∉ cs).
  { subst cs. destruct (clients h !! address c) as [cs|] eqn:Hcs; [|set_solver].
    by apply Hfresh. }
  exists {| clients := <[address c := {[c]} ∪ cs]> (clients h);
            send_closed := send_closed h |}.
  eexists. split; [reflexivity|]. split.
  { apply (unregister_removes _ _ ({[c]} ∪ cs)); cbn [clients send_closed];
      [apply lookup_insert_eq | set_solver | done]. }
  cbn [clients send_closed]. split; [|done].
  assert (Hsame : ({[c]} ∪ cs) ∖ {[c]} = cs) by set_solver.
  rewrite Hsame. apply map_eq. intros a. rewrite set_room_lookup.
  case_decide as Ha; [|by rewrite lookup_insert_ne].
  subst a cs. destruct (clients h !! address c) as [cs|] eqn:Hcs.
  - rewrite decide_False; [done|].
    intros Hz%size_empty_inv%leibniz_equiv. by apply (Hinv _ _ Hcs).
  - by rewrite decide_True by apply size_empty.
Qed.

Lemma register_then_unregister_restores_rooms_witness :
  exists h1 h2 : HubState,
    register fast NewHub = Some h1
    /\ unregister fast h1 = Some h2
    /\ clients h2 = clients NewHub
    /\ send_closed h2 = {[fast]} ∪ send_closed NewHub.
Proof.
  apply (register_then_unregister_restores_rooms fast NewHub).
  - intros a cs. cbn. rewrite lookup_empty. discriminate.
  - intros cs. cbn. rewrite lookup_empty. discriminate.
  - cbn. apply not_elem_of_empty.
Defined.

End HubFacts.

(** *** More on the filesystem store *)

Module StorageFacts.
Import GoString Storage.

(** X9. Whatever the attachment name, every byte of the sanitised name is
    an ASCII letter, a digit, [.], [-] or [_]; so it holds no path
    separator ([/] or [\]) and no NUL byte. *)
Theorem sanitized_name_has_no_separator :
  forall (name : string) (b : Z),
    In b (bytes (sanitizeFilename name)) ->
    kept_char b = true /\ b <> 47 /\ b <> 92 /\ b <> 0.
Proof.
  intros name b Hin.
  pose proof (StorageProps.sanitize_loop_safe (bytes name) 0) as Hall.
  rewrite Forall_forall in Hall. specialize (Hall b).
  assert (Hsafe : kept_char b = true).
  { apply Hall. apply list_elem_of_In. exact Hin. }
  split; [exact Hsafe|].
  unfold kept_char, is_ascii_alnum in Hsafe.
  rewrite !orb_true_iff, !andb_true_iff, !Z.leb_le, !Z.eqb_eq in Hsafe. lia.
Qed.

Lemma sanitized_name_has_no_separator_witness :
  In 95 (bytes (sanitizeFilename "../etc/passwd"))
  /\ sanitizeFilename "../etc/passwd" = ".._etc_passwd"
  /\ kept_char 95 = true.
Proof.
  assert (Hin : In 95 (bytes (sanitizeFilename "../etc/passwd")))
    by (vm_compute; tauto).
  split; [exact Hin|]. split; [reflexivity|].
  exact (proj1 (sanitized_name_has_no_separator "../etc/passwd" 95 Hin)).
Defined.

(** X10. The names that sanitising leaves unchanged are exactly the names
    made of ASCII letters, digits, [.], [-] and [_]. *)
Theorem sanitize_fixes_exactly_safe_names :
  forall name : string,
    sanitizeFilename name = name <->
    Forall (fun b => kept_char b = true) (bytes name).
Proof.
  intros name. split.
  - intros Hfix. rewrite <- Hfix.
    apply (StorageProps.sanitize_loop_safe (bytes name) 0).
  - intros Hsafe. by apply StorageProps.sanitize_loop_fixed.
Qed.

Lemma range_runes_length (s : list Z) : forall skip,
  (length (range_runes skip s) <= length s)%nat.
Proof.
  induction s as [|b t IH]; intros skip; cbn [range_runes length]; [lia|].
  destruct skip as [|k].
  - destruct (DecodeRune (b :: t)) as [ch sz]. cbn [length].
    specialize (IH (sz - 1)%nat). lia.
  - specialize (IH k). lia.
Qed.

Lemma string_of_runes_length (l : list Z) :
  String.length (string_of_runes l) = length l.
Proof. induction l as [|ch l IH]; cbn; [done | by rewrite IH]. Qed.

Lemma bytes_length (s : string) : length (bytes s) = String.length s.
Proof. induction s as [|a s IH]; cbn; [done | by rewrite IH]. Qed.

(** X11. A sanitised name has one byte for each character (rune) of the
    name, so it is never longer than the name: a character of several
    bytes, and each byte that is not valid UTF-8, becomes a single [_]. *)
Theorem sanitized_name_length :
  forall name : string,
    String.length (sanitizeFilename name) = length (runes name)
    /\ (String.length (sanitizeFilename name) <= String.length name)%nat.
Proof.
  intros name.
  assert (Hlen : String.length (sanitizeFilename name) = length (runes name)).
  { unfold sanitizeFilename. rewrite StorageProps.sanitize_loop_runes.
    by rewrite string_of_runes_length, length_map. }
  split; [exact Hlen|]. rewrite Hlen. unfold runes.
  rewrite <- bytes_length. apply range_runes_length.
Qed.

Lemma length_append (s t : string) :
  String.length (s +:+ t) = (String.length s + String.length t)%nat.
Proof. induction s as [|a s IH]; simpl; [done | by rewrite IH]. Qed.

Lemma substring_append_l (s t : string) :
  String.substring 0 (String.length s) (s +:+ t) = s.
Proof. induction s as [|a s IH]; simpl; [by destruct t | by rewrite IH]. Qed.

Lemma substring_append_r (s t : string) (m : nat) :
  String.substring (String.length s) m (s +:+ t) = String.substring 0 m t.
Proof. induction s as [|a s IH]; simpl; [done | by rewrite IH]. Qed.

Section WithEnv.
Context {W : Type} `{Env W}.

(** The write under a temporary name and the rename, outcome by outcome
    of the two system calls. *)
Lemma writeThenRename_run (filePath data what : string) (w : W) :
  let tempPath := filePath +:+ ".tmp" in
  let wr := os_WriteFile tempPath data w in
  let rn := os_Rename tempPath filePath wr.1 in
  let run := writeThenRename filePath data what w in
  if negb wr.2 then
    run = (wr.1, [EvWriteFile tempPath data], Err ("failed to write " +:+ what))
  else if negb rn.2 then
    run = (os_Remove tempPath rn.1,
           [EvWriteFile tempPath data; EvRename tempPath filePath; EvRemove tempPath],
           Err ("failed to rename " +:+ what))
  else
    run = (rn.1, [EvWriteFile tempPath data; EvRename tempPath filePath], Ok filePath).
Proof.
  unfold writeThenRename, bind, call, ret. cbv zeta.
  destruct (os_WriteFile (filePath +:+ ".tmp") data w) as [w1 written].
  destruct written; cbn [negb fst snd app]; [|done].
  destruct (os_Rename (filePath +:+ ".tmp") filePath w1) as [w2 renamed].
  by destruct renamed.
Qed.

(** X12. [SaveEmail], outcome by outcome of the system calls it makes.  It
    creates the storage directory, draws the file name (the hash of the
    time, the address and a random number, with [.eml]), writes the message
    under that name with [.tmp] appended and renames it into place; the
    final path is never written to.  It returns the path exactly when all
    four steps succeed.  When a step fails it stops there with an error,
    and when the step that fails is the rename it removes the temporary
    file first. *)
Theorem SaveEmail_writes_then_renames :
  forall (basePath toAddress rawEmail : string) (w : W),
    let run := SaveEmail basePath toAddress rawEmail w in
    let mk := os_MkdirAll basePath w in
    let rnd := rand_Int (999999 - 1000 + 1) mk.1 in
    if negb mk.2 then
      world_of run = mk.1 /\ trace_of run = [EvMkdirAll basePath]
      /\ exists msg, value_of run = Err msg
    else
      match rnd.2 with
      | None =>
        world_of run = rnd.1 /\ trace_of run = [EvMkdirAll basePath]
        /\ exists msg, value_of run = Err msg
      | Some n =>
        let now := time_Now "20060102150405.000000" rnd.1 in
        let hash := sha256_hex (now.2 +:+ toAddress +:+ fmt_int (GoInt.add64 1000 n)) in
        let path := filepath_Join basePath (hash +:+ ".eml") in
        let tempPath := path +:+ ".tmp" in
        let wr := os_WriteFile tempPath rawEmail now.1 in
        let rn := os_Rename tempPath path wr.1 in
        if negb wr.2 then
          world_of run = wr.1
          /\ trace_of run = [EvMkdirAll basePath; EvWriteFile tempPath rawEmail]
          /\ exists msg, value_of run = Err msg
        else if negb rn.2 then
          world_of run = os_Remove tempPath rn.1
          /\ trace_of run = [EvMkdirAll basePath; EvWriteFile tempPath rawEmail;
                             EvRename tempPath path; EvRemove tempPath]
          /\ exists msg, value_of run = Err msg
        else
          world_of run = rn.1
          /\ trace_of run = [EvMkdirAll basePath; EvWriteFile tempPath rawEmail;
                             EvRename tempPath path]
          /\ value_of run = Ok path
      end.
Proof.
  intros basePath toAddress rawEmail w run. subst run.
  unfold SaveEmail, generateFilename, bind, call, ask, ret. cbv zeta.
  destruct (os_MkdirAll basePath w) as [w1 made].
  destruct made; cbn [negb fst snd].
  2: { unfold world_of, trace_of, value_of. cbn. by eauto. }
  destruct (rand_Int (999999 - 1000 + 1) w1) as [w2 [n|]]; cbn [fst snd].
  2: { unfold world_of, trace_of, value_of. cbn. by eauto. }
  destruct (time_Now "20060102150405.000000" w2) as [w3 timestamp]. cbn [fst snd].
  pose proof (writeThenRename_run
                (filepath_Join basePath
                   (sha256_hex (timestamp +:+ toAddress +:+ fmt_int (GoInt.add64 1000 n))
                    +:+ ".eml")) rawEmail "file" w3) as Hrun.
  cbv zeta in Hrun.
  destruct (negb (os_WriteFile _ rawEmail w3).2);
    [|destruct (negb (os_Rename _ _ (os_WriteFile _ rawEmail w3).1).2)];
    rewrite Hrun; unfold world_of, trace_of, value_of; cbn; by eauto.
Qed.

(** X13. [SaveAttachment] for a stored message [stem.eml] with a non-empty
    stem, outcome by outcome of the system calls it makes.  The attachment
    goes to [stem_] followed by the sanitised attachment name, in the
    storage directory: the bytes are written under that name with [.tmp]
    appended and renamed into place.  The path is returned exactly when the
    directory creation, the write and the rename all succeed.  When a step
    fails it stops there with an error, and when the step that fails is the
    rename it removes the temporary file first. *)
Theorem SaveAttachment_name_and_trace :
  forall (basePath stem attachmentName data : string) (w : W),
    stem <> EmptyString ->
    let run := SaveAttachment basePath (stem +:+ ".eml") attachmentName data w in
    let path := filepath_Join basePath
                  (stem +:+ "_" +:+ sanitizeFilename attachmentName) in
    let tempPath := path +:+ ".tmp" in
    let mk := os_MkdirAll basePath w in
    let wr := os_WriteFile tempPath data mk.1 in
    let rn := os_Rename tempPath path wr.1 in
    if negb mk.2 then
      world_of run = mk.1 /\ trace_of run = [EvMkdirAll basePath]
      /\ exists msg, value_of run = Err msg
    else if negb wr.2 then
      world_of run = wr.1
      /\ trace_of run = [EvMkdirAll basePath; EvWriteFile tempPath data]
      /\ exists msg, value_of run = Err msg
    else if negb rn.2 then
      world_of run = os_Remove tempPath rn.1
      /\ trace_of run = [EvMkdirAll basePath; EvWriteFile tempPath data;
                         EvRename tempPath path; EvRemove tempPath]
      /\ exists msg, value_of run = Err msg
    else
      world_of run = rn.1
      /\ trace_of run = [EvMkdirAll basePath; EvWriteFile tempPath data;
                         EvRename tempPath path]
      /\ value_of run = Ok path.
Proof.
  intros basePath stem attachmentName data w Hstem run path tempPath.
  assert (Hname :
    (if (4 <? len (stem +:+ ".eml"))
        && String.eqb (GoStrings.slice (stem +:+ ".eml") (len (stem +:+ ".eml") - 4)
                         (len (stem +:+ ".eml"))) ".eml"
     then GoStrings.slice (stem +:+ ".eml") 0 (len (stem +:+ ".eml") - 4)
     else stem +:+ ".eml") = stem).
  { assert (Hlen : len (stem +:+ ".eml") = Z.of_nat (String.length stem) + 4).
    { unfold len. rewrite length_append. cbn. lia. }
    assert (Hpos : (0 < String.length stem)%nat) by (destruct stem; [done | cbn; lia]).
    rewrite Hlen.
    replace (4 <? Z.of_nat (String.length stem) + 4) with true
      by (symmetry; apply Z.ltb_lt; lia).
    unfold GoStrings.slice.
    replace (Z.of_nat (String.length stem) + 4 - 4) with (Z.of_nat (String.length stem))
      by lia.
    replace (Z.of_nat (String.length stem) + 4 - Z.of_nat (String.length stem)) with 4
      by lia.
    rewrite Z.sub_0_r, Nat2Z.id. change (Z.to_nat 0) with 0%nat.
    change (Z.to_nat 4) with 4%nat.
    by rewrite substring_append_r, substring_append_l. }
  subst run. unfold SaveAttachment, bind, call, ret. cbv zeta. rewrite Hname.
  fold path. fold tempPath.
  destruct (os_MkdirAll basePath w) as [w1 made].
  destruct made; cbn [negb fst snd].
  2: { unfold world_of, trace_of, value_of. cbn. by eauto. }
  pose proof (writeThenRename_run path data "attachment" w1) as Hrun.
  cbv zeta in Hrun. fold tempPath in Hrun.
  destruct (negb (os_WriteFile tempPath data w1).2);
    [|destruct (negb (os_Rename tempPath path (os_WriteFile tempPath data w1).1).2)];
    rewrite Hrun; unfold world_of, trace_of, value_of; cbn; by eauto.
Qed.

End WithEnv.

(** An attachment saved, and an attachment whose rename fails: the
    temporary file is removed and an error returned. *)
Lemma SaveAttachment_name_and_trace_witness :
  ("ab12" : string) <> EmptyString
  /\ value_of (SaveAttachment (H := Scenario.upEnv) "mail" "ab12.eml" "a b.pdf" "%PDF" tt)
     = Ok "mail/ab12_a_b.pdf"
  /\ trace_of (SaveAttachment (H := Scenario2.noRenameEnv) "mail" "ab12.eml" "a b.pdf"
                 "%PDF" tt)
     = [EvMkdirAll "mail"; EvWriteFile "mail/ab12_a_b.pdf.tmp" "%PDF";
        EvRename "mail/ab12_a_b.pdf.tmp" "mail/ab12_a_b.pdf";
        EvRemove "mail/ab12_a_b.pdf.tmp"]
  /\ exists msg, value_of (SaveAttachment (H := Scenario2.noRenameEnv) "mail" "ab12.eml"
                             "a b.pdf" "%PDF" tt) = Err msg.
Proof.
  assert (Hstem : ("ab12" : string) <> EmptyString) by discriminate.
  split; [exact Hstem|]. split.
  - exact (proj2 (proj2 (SaveAttachment_name_and_trace (H := Scenario.upEnv)
                           "mail" "ab12" "a b.pdf" "%PDF" tt Hstem))).
  - exact (proj2 (SaveAttachment_name_and_trace (H := Scenario2.noRenameEnv)
                    "mail" "ab12" "a b.pdf" "%PDF" tt Hstem)).
Defined.

(** A message whose rename fails: the temporary file is removed and an
    error returned. *)
Lemma SaveEmail_writes_then_renames_witness :
  trace_of (SaveEmail (H := Scenario2.noRenameEnv) "mail" "alice@tmp" "hello" tt)
    = [EvMkdirAll "mail"; EvWriteFile "mail/nowalice@tmpn.eml.tmp" "hello";
       EvRename "mail/nowalice@tmpn.eml.tmp" "mail/nowalice@tmpn.eml";
       EvRemove "mail/nowalice@tmpn.eml.tmp"]
  /\ exists msg, value_of (SaveEmail (H := Scenario2.noRenameEnv) "mail" "alice@tmp"
                             "hello" tt) = Err msg.
Proof.
  exact (proj2 (SaveEmail_writes_then_renames (H := Scenario2.noRenameEnv)
                  "mail" "alice@tmp" "hello" tt)).
Defined.

End StorageFacts.

(** *** More on the SMTP session *)

Module SmtpFacts.
Import GoString GoStrings Storage Smtp Observe MonadProps.

Lemma Split_length (s : string) (sep : ascii) :
  length (Split s sep) = S (count_byte sep s).
Proof.
  induction s as [|a t IH]; cbn [Split count_byte]; [done|].
  destruct (Ascii.eqb a sep); cbn [length].
  - by rewrite IH.
  - destruct (Split t sep) as [|p ps]; cbn [length] in *; [done | lia].
Qed.

Lemma Split_without (s : string) (sep : ascii) :
  count_byte sep s = 0%nat -> Split s sep = [s].
Proof.
  induction s as [|a t IH]; cbn [Split count_byte]; [done|].
  destruct (Ascii.eqb a sep); [done|]. intros Hc. by rewrite IH.
Qed.

Lemma Split_at_first (u d : string) (sep : ascii) :
  count_byte sep u = 0%nat ->
  Split (u +:+ String sep d) sep = u :: Split d sep.
Proof.
  induction u as [|a t IH]; simpl.
  - by rewrite Ascii.eqb_refl.
  - destruct (Ascii.eqb a sep); [done|]. intros Hc. by rewrite IH.
Qed.

(** X14. The sender domain is the part after the [@] when the address has
    exactly one [@]; an address with no [@] or with several has the empty
    domain. *)
Theorem extractDomain_needs_one_at :
  (forall user domain : string,
     count_byte "@" user = 0%nat -> count_byte "@" domain = 0%nat ->
     extractDomain (user +:+ "@" +:+ domain) = domain)
  /\ (forall email : string,
        count_byte "@" email <> 1%nat -> extractDomain email = EmptyString).
Proof.
  split.
  - intros user domain Hu Hd. unfold extractDomain.
    change ("@" +:+ domain) with (String "@" domain).
    by rewrite Split_at_first, Split_without.
  - intros email Hcount. unfold extractDomain.
    pose proof (Split_length email "@") as Hlen.
    destruct (Split email "@") as [|p [|d [|x rest]]]; try done.
    cbn [length] in Hlen. lia.
Qed.

Lemma extractDomain_needs_one_at_witness :
  extractDomain ("carol" +:+ "@" +:+ "example.org") = "example.org"
  /\ extractDomain "carol@example.org@evil.test" = EmptyString.
Proof.
  split.
  - apply (proj1 extractDomain_needs_one_at); reflexivity.
  - apply (proj2 extractDomain_needs_one_at). discriminate.
Defined.

Create HintDb smtp_traces.
#[local] Hint Resolve emits_only_ret emits_only_ask emits_only_call
  emits_only_emit emits_only_bind emits_only_if : smtp_traces.

Section WithEnv.
Context {W : Type} `{Env W}.
Variable cfg : Config.

Lemma emits_only_call_out {A : Type} (P : Event -> Prop) (ev : A -> Event)
    (op : W -> W * A) :
  (forall a, P (ev a)) -> emits_only P (call_out ev op).
Proof.
  intros Hev w. unfold call_out, trace_of. destruct (op w) as [w1 a]. cbn.
  by repeat constructor.
Qed.

Lemma validateEmailAuth_checks (s : Session) (rawEmail : string) :
  emits_only check_event (validateEmailAuth cfg s rawEmail).
Proof.
  unfold validateEmailAuth.
  apply emits_only_bind.
  { unfold spfPhase. destruct (clientIP s) as [ip|]; [|auto with smtp_traces].
    destruct (ValidateSPF cfg && _); [|auto with smtp_traces].
    apply emits_only_bind; [by apply emits_only_call|].
    intros [r [e|]]; auto with smtp_traces. }
  intros r1. apply emits_only_bind.
  { unfold dkimPhase. destruct (ValidateDKIM cfg); [|auto with smtp_traces].
    apply emits_only_bind; [by apply emits_only_call|].
    intros [[|v vs]|e]; auto with smtp_traces. }
  intros r2. unfold dmarcPhase.
  destruct (ValidateDMARC cfg && _); [|auto with smtp_traces].
  apply emits_only_bind; [by apply emits_only_call_out|].
  intros [policy| |msg]; auto with smtp_traces.
Qed.

Lemma receive_checks (s : Session) (r : Reader) :
  emits_only check_event (receive cfg s r).
Proof.
  unfold receive. destruct (recipients s) as [|r0 rs]; [auto with smtp_traces|].
  destruct (readAllLimited r (MaxEmailSize cfg)) as [raw failed].
  apply emits_only_bind; [by apply emits_only_emit|]. intros _.
  destruct failed; [auto with smtp_traces|].
  destruct (MaxEmailSize cfg <=? len raw); [auto with smtp_traces|].
  destruct (ValidateSPF cfg || ValidateDKIM cfg || ValidateDMARC cfg);
    [|auto with smtp_traces].
  apply emits_only_bind; [apply validateEmailAuth_checks|]. intros a.
  destruct (shouldRejectEmail cfg a); auto with smtp_traces.
Qed.

Lemma receive_codes (s : Session) (r : Reader) (w : W) (e : SMTPError) :
  value_of (receive cfg s r w) = Rejected e ->
  Code e = 554 \/ Code e = 451 \/ Code e = 552 \/ Code e = 550.
Proof.
  unfold receive. destruct (recipients s) as [|r0 rs].
  { intros [= <-]. by left. }
  destruct (readAllLimited r (MaxEmailSize cfg)) as [raw failed].
  unfold bind, emit, ret, value_of. cbn [fst snd].
  destruct failed; [intros [= <-]; right; by left|].
  destruct (MaxEmailSize cfg <=? len raw); [intros [= <-]; right; right; by left|].
  destruct (ValidateSPF cfg || ValidateDKIM cfg || ValidateDMARC cfg); [|done].
  destruct (validateEmailAuth cfg s raw w) as [[w1 t1] a].
  destruct (shouldRejectEmail cfg a); [|done].
  intros [= <-]. right; right; by right.
Qed.

(** X15. The data phase answers with an error only with one of the codes
    554, 451, 552 and 550, and whenever it does, all it has done is read
    the body and make authentication lookups: no file was written, no store
    request sent and nothing published, for any recipient. *)
Theorem data_error_stores_nothing :
  forall (s : Session) (r : Reader) (w : W) (e : SMTPError),
    value_of (Data cfg s r w) = Some e ->
    (Code e = 554 \/ Code e = 451 \/ Code e = 552 \/ Code e = 550)
    /\ Forall check_event (trace_of (Data cfg s r w)).
Proof.
  intros s r w e. unfold Data. rewrite bind_run.
  pose proof (receive_checks s r w) as Hchecks.
  pose proof (receive_codes s r w) as Hcodes.
  destruct (value_of (receive cfg s r w)) as [e0|raw].
  - unfold ret, value_of at 1, trace_of at 1. cbn [fst snd].
    intros [= <-]. split; [by apply Hcodes|]. by rewrite app_nil_r.
  - rewrite bind_run. unfold ret, value_of. cbn [fst snd]. discriminate.
Qed.

(** X16. When the body stream breaks before the size ceiling is reached,
    the data phase answers the temporary error 451 and keeps nothing of
    what it read. *)
Theorem data_read_failure_is_temporary :
  forall (s : Session) (r : Reader) (w : W),
    recipients s <> [] ->
    len (rd_data r) < MaxEmailSize cfg ->
    rd_fails r = true ->
    Data cfg s r w =
      (w, [EvReadBody (String.length (rd_data r))],
       Some {| Code := 451; Message := "Failed to read email data" |})
    /\ temporary {| Code := 451; Message := "Failed to read email data" |}.
Proof.
  intros s r w Hrcpt Hlen Hfail. split; [|unfold temporary; cbn; lia].
  unfold Data, receive. destruct (recipients s) as [|r0 rs]; [done|].
  rewrite SmtpProps.readAllLimited_short by done. rewrite Hfail. reflexivity.
Qed.

(** X17. Any answer of the authority with a status other than 200, a 404
    included, makes RCPT answer the temporary code 451; the recipient is
    not accepted and the session is unchanged. *)
Theorem rcpt_other_status_is_temporary :
  forall (to_ : string) (s : Session) (w w1 : W) (status : Z) (body : string),
    let url := APIServiceURL cfg +:+ "/internal/v1/email/"
                 +:+ extractEmailAddress to_ +:+ "/" in
    http_NewRequest_ok url = true ->
    http_Do_get url w = (w1, HttpResponse status body) ->
    status <> 200 ->
    Rcpt cfg to_ s w =
      (w1, [EvHttpGet url],
       (s, Some {| Code := 451; Message := "Temporary failure validating address" |})).
Proof.
  intros to_ s w w1 status body url Hreq Hget Hstatus.
  unfold Rcpt, Client.ValidateAddress, bind, call, ret, smtpError. cbv zeta.
  fold url. rewrite Hreq. cbn [negb]. rewrite Hget.
  destruct (Z.eqb_spec status 200); [done|]. reflexivity.
Qed.


Lemma dmarcPhase_keeps (domain : string) (result : AuthResult) (w : W) :
  SPFResult (value_of (dmarcPhase cfg domain result w)) = SPFResult result
  /\ DKIMResult (value_of (dmarcPhase cfg domain result w)) = DKIMResult result.
Proof.
  unfold dmarcPhase. destruct (ValidateDMARC cfg && _); [|done].
  unfold bind, call_out, ret, value_of.
  destruct (dmarc_Lookup domain w) as [w1 [policy| |msg]]; done.
Qed.


(** X19. The DKIM verdict, with DKIM checking enabled: the signatures are
    verified once, after the SPF step; the verdict is [temperror] when the
    verification itself fails, [none] when the message has no signature,
    [pass] when every signature verifies and [fail] when one does not.
    With DKIM checking disabled it is [none]. *)
Theorem dkim_verdict_from_signatures :
  forall (s : Session) (rawEmail : string) (w : W),
    let result := value_of (validateEmailAuth cfg s rawEmail w) in
    if ValidateDKIM cfg then
      exists (w1 : W),
        DKIMResult result =
          match (dkim_Verify rawEmail w1).2 with
          | inr _ => "temperror"
          | inl [] => "none"
          | inl signatures =>
            if forallb (fun v => match VErr v with None => true | Some _ => false end)
                       signatures
            then "pass" else "fail"
          end
    else DKIMResult result = "none".
Proof.
  intros s rawEmail w result. subst result.
  unfold validateEmailAuth. rewrite !value_bind, ?world_bind.
  rewrite (proj2 (dmarcPhase_keeps _ _ _)).
  set (spf := spfPhase cfg s (extractDomain (from s)) _ w).
  assert (Hnone : DKIMResult (value_of spf) = "none").
  { subst spf. unfold spfPhase. destruct (clientIP s) as [ip|]; [|done].
    destruct (ValidateSPF cfg && _); [|done].
    unfold bind, call, ret, value_of.
    destruct (spf_CheckHostWithSender ip "localhost" (from s) w) as [w1 [answer [e|]]];
      reflexivity. }
  unfold dkimPhase. destruct (ValidateDKIM cfg); [|done].
  exists (world_of spf). unfold bind, call, ret, value_of.
  destruct (dkim_Verify rawEmail (world_of spf)) as [w2 [[|v vs]|e]]; reflexivity.
Qed.

Lemma only_dkim_can_reject (a : AuthResult) :
  SPFResult a = "none" -> DMARCResult a = "none" ->
  shouldRejectEmail cfg a = true ->
  ValidateDKIM cfg = true /\ DKIMResult a = "fail".
Proof.
  intros Hs Hd. unfold shouldRejectEmail. rewrite Hs, Hd.
  change (String.eqb "none" "fail") with false.
  change (String.eqb "none" "permerror") with false.
  rewrite !andb_false_r. cbn [orb].
  destruct (negb _); [done|]. destruct (ValidateDKIM cfg); cbn [andb]; [|done].
  by destruct (String.eqb_spec (DKIMResult a) "fail").
Qed.

(** X20. A sender whose address has no single [@] (the empty sender of a
    bounce, for one) gets neither an SPF check nor a DMARC lookup: both
    verdicts are [none], the only lookup is the DKIM verification, and such
    a message is rejected only for a failed DKIM signature. *)
Theorem no_sender_domain_skips_spf_and_dmarc :
  forall (s : Session) (rawEmail : string) (w : W),
    extractDomain (from s) = EmptyString ->
    let run := validateEmailAuth cfg s rawEmail w in
    SPFResult (value_of run) = "none"
    /\ DMARCResult (value_of run) = "none"
    /\ (trace_of run = [] \/ trace_of run = [EvDkimVerify])
    /\ (shouldRejectEmail cfg (value_of run) = true ->
        ValidateDKIM cfg = true /\ DKIMResult (value_of run) = "fail").
Proof.
  intros s rawEmail w Hdom run. subst run.
  unfold validateEmailAuth, spfPhase, dmarcPhase. rewrite Hdom.
  change (String.eqb "" "") with true. cbn [negb]. rewrite !andb_false_r.
  assert (Hsame : forall (A : Type) (x : A),
            match clientIP s with Some _ => x | None => x end = x)
    by (intros; by destruct (clientIP s)).
  rewrite Hsame. unfold dkimPhase.
  destruct (ValidateDKIM cfg) eqn:Hdkim;
    unfold bind, ret, call, value_of, trace_of; cbn [fst snd app].
  - destruct (dkim_Verify rawEmail w) as [w1 [[|v vs]|e]]; cbn [fst snd app];
      (split; [reflexivity|]; split; [reflexivity|]; split; [by right|]);
      (intros Hr; apply only_dkim_can_reject in Hr; [|reflexivity|reflexivity];
       destruct Hr as [Hv Hf]; split; [congruence | exact Hf]).
  - split; [reflexivity|]. split; [reflexivity|]. split; [by left|].
    intros Hr. apply only_dkim_can_reject in Hr; [|reflexivity|reflexivity].
    destruct Hr as [Hv Hf]. split; [congruence | exact Hf].
Qed.

(** X21. [processEmail] returns an error exactly when the raw message
    could not be saved, and then it has done nothing but the attempt to
    save.  Once the message is on disk it returns no error, whatever
    happens to the attachments and to the store request. *)
Theorem processEmail_fails_only_when_save_fails :
  forall (s : Session) (toAddress rawEmail : string) (w : W),
    let saved := SaveEmail (StoragePath cfg) toAddress rawEmail w in
    match value_of saved with
    | Err e =>
      processEmail cfg s toAddress rawEmail w =
        (world_of saved, trace_of saved, Some ("failed to save email: " +:+ e))
    | Ok _ => value_of (processEmail cfg s toAddress rawEmail w) = None
    end.
Proof.
  intros s toAddress rawEmail w saved. subst saved.
  unfold processEmail. rewrite bind_run.
  destruct (value_of (SaveEmail (StoragePath cfg) toAddress rawEmail w)) as [path|e].
  - cbv zeta. rewrite !bind_run. reflexivity.
  - unfold ret, world_of, trace_of, value_of. cbn [fst snd]. by rewrite app_nil_r.
Qed.

(** X22. After RSET the transaction is forgotten: whatever sender and
    recipients the session had, a data phase that follows is refused
    with 554 without reading anything, and the peer address is kept. *)
Theorem reset_then_data_is_refused :
  forall (s : Session) (r : Reader) (w : W),
    Data cfg (Reset s) r w =
      (w, [], Some {| Code := 554; Message := "No valid recipients" |})
    /\ from (Reset s) = EmptyString
    /\ clientIP (Reset s) = clientIP s.
Proof. intros s r w. done. Qed.

Lemma Rcpt_session (to_ : string) (s : Session) (w : W) :
  let result := value_of (Rcpt cfg to_ s w) in
  (exists e, result = (s, Some e))
  \/ (exists rcpt,
        result = ({| from := from s; recipients := recipients s ++ [rcpt];
                     clientIP := clientIP s |}, None)).
Proof.
  unfold Rcpt. rewrite bind_run.
  destruct (value_of (Client.ValidateAddress _ _ w)) as [v|msg].
  - destruct (negb (Valid v)); [left; by eexists|].
    destruct (Expired v); [left; by eexists|]. right. by eexists.
  - left. by eexists.
Qed.

(** X23. A series of RCPT commands only ever adds to the accepted list:
    every command gets one reply, the recipients accepted before stay
    first and in order, one entry is added for each command answered
    without error (also when the address was accepted already), and sender
    and peer address are untouched. *)
Theorem rcpt_series_accumulates :
  forall (tos : list string) (s : Session) (w : W),
    let s' := (value_of (rcptAll cfg tos s w)).1 in
    let replies := (value_of (rcptAll cfg tos s w)).2 in
    length replies = length tos
    /\ from s' = from s
    /\ clientIP s' = clientIP s
    /\ exists added : list recipientInfo,
         recipients s' = recipients s ++ added
         /\ length added = accepted_replies replies.
Proof.
  induction tos as [|to_ rest IH]; intros s w; cbn [rcptAll].
  - cbn. repeat split; try done. exists []. by rewrite app_nil_r.
  - rewrite bind_run.
    pose proof (Rcpt_session to_ s w) as Hone. cbv zeta in Hone.
    destruct (value_of (Rcpt cfg to_ s w)) as [s1 reply] eqn:Hval.
    rewrite bind_run.
    specialize (IH s1 (world_of (Rcpt cfg to_ s w))). cbv zeta in IH.
    destruct (value_of (rcptAll cfg rest s1 (world_of (Rcpt cfg to_ s w))))
      as [s2 replies].
    cbn [ret value_of fst snd length] in *.
    destruct IH as (Hlen & Hfrom & Hip & added & Hadded & Hcount).
    destruct Hone as [[e [= -> ->]]|[rcpt [= -> ->]]].
    + repeat split; [by rewrite Hlen | done | done |].
      exists added. split; [done|]. by rewrite Hcount.
    + cbn [from clientIP recipients] in *.
      repeat split; [by rewrite Hlen | done | done |].
      exists (rcpt :: added). split; [by rewrite Hadded, <- app_assoc|].
      unfold accepted_replies in *. cbn [List.filter length]. by rewrite Hcount.
Qed.

End WithEnv.

Lemma data_error_stores_nothing_witness :
  value_of (Data (H := Scenario.upEnv) Scenario.rejecting Scenario.twoRecipients
                 Scenario.tenBytes tt)
    = Some {| Code := 550;
              Message := "Email rejected: authentication failed (SPF/DKIM/DMARC)" |}
  /\ Forall check_event
       (trace_of (Data (H := Scenario.upEnv) Scenario.rejecting Scenario.twoRecipients
                       Scenario.tenBytes tt)).
Proof.
  split; [reflexivity|].
  apply (data_error_stores_nothing (H := Scenario.upEnv) Scenario.rejecting
           Scenario.twoRecipients Scenario.tenBytes tt _ eq_refl).
Defined.

Lemma data_read_failure_is_temporary_witness :
  Data (H := Scenario.upEnv) Scenario.logOnly Scenario.twoRecipients
       {| rd_data := "0123"; rd_fails := true |} tt =
    (tt, [EvReadBody 4], Some {| Code := 451; Message := "Failed to read email data" |}).
Proof.
  apply (data_read_failure_is_temporary (H := Scenario.upEnv) Scenario.logOnly
           Scenario.twoRecipients {| rd_data := "0123"; rd_fails := true |} tt);
    [discriminate | reflexivity | reflexivity].
Defined.

Lemma rcpt_other_status_is_temporary_witness :
  (404 : Z) <> 200
  /\ Rcpt (H := Scenario2.notFoundEnv) Scenario.logOnly "<bob@tmp>" Scenario.noRecipients tt
     = (tt, [EvHttpGet "http://api/internal/v1/email/bob@tmp/"],
        (Scenario.noRecipients,
         Some {| Code := 451; Message := "Temporary failure validating address" |})).
Proof.
  split; [discriminate|].
  apply (rcpt_other_status_is_temporary (H := Scenario2.notFoundEnv) Scenario.logOnly
           "<bob@tmp>" Scenario.noRecipients tt tt 404 "not found");
    [reflexivity | reflexivity | discriminate].
Defined.


Lemma no_sender_domain_skips_spf_and_dmarc_witness :
  extractDomain (from Scenario2.bounce) = EmptyString
  /\ trace_of (validateEmailAuth (H := Scenario.upEnv) Scenario.rejecting
                 Scenario2.bounce "0123456789" tt) = [EvDkimVerify]
  /\ shouldRejectEmail Scenario.rejecting
       (value_of (validateEmailAuth (H := Scenario.upEnv) Scenario.rejecting
                    Scenario2.bounce "0123456789" tt)) = false.
Proof.
  split; [reflexivity|].
  destruct (no_sender_domain_skips_spf_and_dmarc (H := Scenario.upEnv) Scenario.rejecting
              Scenario2.bounce "0123456789" tt eq_refl) as (_ & _ & Htrace & Hreject).
  split.
  - destruct Htrace as [Hnil|Hone]; [vm_compute in Hnil; discriminate | exact Hone].
  - destruct (shouldRejectEmail Scenario.rejecting _) eqn:Hr; [|reflexivity].
    destruct (Hreject eq_refl) as [_ Hfail]. vm_compute in Hfail. discriminate.
Defined.

End SmtpFacts.

(** *** The quota rule of the data phase against the specification's *)

Module QuotaProps.
Import GoString GoStrings Storage Smtp Observe QuotaReading MonadProps.



Section WithEnv.
Context {W : Type} `{Env W}.
Variable cfg : Config.



End WithEnv.



End QuotaProps.

(** *** The store endpoint and the requests that reach it *)

Module ApiFacts.
Import GoString Storage Observe MonadProps.

Lemma broadcasts_app (t1 t2 : list Event) :
  broadcasts (t1 ++ t2) = broadcasts t1 ++ broadcasts t2.
Proof. unfold broadcasts. apply flat_map_app. Qed.

Lemma inserted_emails_app (t1 t2 : list Event) :
  inserted_emails (t1 ++ t2) = inserted_emails t1 ++ inserted_emails t2.
Proof. unfold inserted_emails. apply flat_map_app. Qed.

Lemma inserted_attachments_app (t1 t2 : list Event) :
  inserted_attachments (t1 ++ t2) = inserted_attachments t1 ++ inserted_attachments t2.
Proof. unfold inserted_attachments. apply flat_map_app. Qed.

Lemma broadcasts_app_nil (t : list Event) : broadcasts (t ++ [] ++ []) = broadcasts t.
Proof. cbn [app]. by rewrite app_nil_r. Qed.

Section WithEnv.
Context {W : Type} `{Env W}.

(** One turn of the attachment loop. *)
Lemma insertAttachments_cons (emailID : string) (names : list string) (sizes : list Z)
    (path : string) (rest : list string) (i : nat) (w : W) :
  exists (att : Attachment) (w2 : W),
    Filepath att = path
    /\ Filename att = match names !! i with Some n => n | None => "" end
    /\ Size att = match sizes !! i with Some z => z | None => 0 end
    /\ AttEmailID att = emailID
    /\ trace_of (Api.insertAttachments emailID names sizes i (path :: rest) w)
       = EvDbInsertAttachment att
           :: trace_of (Api.insertAttachments emailID names sizes (S i) rest w2).
Proof.
  cbn [Api.insertAttachments]. cbv zeta.
  unfold Api.NewAttachment, bind, call, ask, ret, trace_of.
  destruct (ulid_New w) as [w1 id]. cbn [app].
  destruct (db_InsertAttachment _ w1) as [w2 inserted].
  eexists _, w2.
  destruct (Api.insertAttachments emailID names sizes (S i) rest w2) as [[w3 t3] u].
  cbn. repeat split; reflexivity.
Qed.

(** The attachment loop publishes nothing and inserts no email. *)
Lemma insertAttachments_quiet (emailID : string) (names : list string) (sizes : list Z)
    (paths : list string) (i : nat) (w : W) :
  broadcasts (trace_of (Api.insertAttachments emailID names sizes i paths w)) = []
  /\ inserted_emails (trace_of (Api.insertAttachments emailID names sizes i paths w)) = [].
Proof.
  revert i w. induction paths as [|path rest IH]; intros i w; [done|].
  destruct (insertAttachments_cons emailID names sizes path rest i w)
    as (att & w2 & _ & _ & _ & _ & ->).
  exact (IH (S i) w2).
Qed.

(** X24. The attachment loop of the store endpoint hands the database one
    row for each path of the request, in order and all for the new email;
    the [i]-th row has the [i]-th name and size of the request, or the
    empty name and the size 0 when the request has fewer names or sizes than
    paths, and a failed insert does not stop the loop.  Nothing else
    happens in the loop. *)
Theorem store_endpoint_attachment_rows :
  forall (emailID : string) (names : list string) (sizes : list Z)
         (paths : list string) (i : nat) (w : W),
    let tr := trace_of (Api.insertAttachments emailID names sizes i paths w) in
    map (fun a => (Filepath a, Filename a, Size a)) (inserted_attachments tr)
      = padded_attachments names sizes i paths
    /\ Forall (fun a => AttEmailID a = emailID) (inserted_attachments tr)
    /\ length tr = length paths
    /\ broadcasts tr = [] /\ inserted_emails tr = [].
Proof.
  intros emailID names sizes paths.
  induction paths as [|path rest IH]; intros i w; cbv zeta.
  - cbn. repeat split; constructor.
  - destruct (insertAttachments_cons emailID names sizes path rest i w)
      as (att & w2 & Hpath & Hname & Hsize & Hid & ->).
    destruct (IH (S i) w2) as (Hrows & Hall & Hlen & Hb & He).
    cbn [padded_attachments inserted_attachments broadcasts inserted_emails flat_map
         app map length].
    fold (inserted_attachments
            (trace_of (Api.insertAttachments emailID names sizes (S i) rest w2))).
    fold (broadcasts (trace_of (Api.insertAttachments emailID names sizes (S i) rest w2))).
    fold (inserted_emails
            (trace_of (Api.insertAttachments emailID names sizes (S i) rest w2))).
    rewrite Hrows, Hlen, Hb, He, Hpath, Hname, Hsize.
    repeat split; try done. by constructor.
Qed.

(** The store endpoint, case by case: what it answers, and with what
    trace. *)
Lemma StoreEmail_handler_cases (address body : string) (w : W) :
  let run := Api.StoreEmail address body w in
  ((value_of run).1 = 200
   /\ Success (value_of run).2 = true
   /\ (db_IsValidAddress address w).2 = DbAnswer true false
   /\ broadcasts (trace_of run) = [address]
   /\ exists email, inserted_emails (trace_of run) = [email]
                    /\ EmailID (value_of run).2 = ID email)
  \/ (((value_of run).1 = 400 \/ (value_of run).1 = 404 \/ (value_of run).1 = 410
       \/ (value_of run).1 = 500)
      /\ Success (value_of run).2 = false
      /\ broadcasts (trace_of run) = []
      /\ inserted_attachments (trace_of run) = []
      /\ ((db_IsValidAddress address w).2 <> DbAnswer true false ->
          inserted_emails (trace_of run) = [])).
Proof.
  unfold Api.StoreEmail, Api.failure. cbv zeta.
  destruct (String.eqb address "").
  { right. cbn. repeat split; try done. lia. }
  unfold value_of, trace_of, bind, call, ret.
  destruct (db_IsValidAddress address w) as [w1 validity]. cbn [fst snd].
  destruct validity as [|valid expired].
  { right. cbn. repeat split; try done. lia. }
  destruct valid; cbn [negb].
  2: { right. cbn. repeat split; try done. lia. }
  destruct expired.
  { right. cbn. repeat split; try done. lia. }
  destruct (json_decode_request body) as [req|].
  2: { right. cbn. repeat split; try done. lia. }
  unfold Api.NewEmail, bind, ask, call, emit, ret.
  destruct (time_Now "2006-01-02T15:04:05Z07:00" w1) as [w2 now].
  destruct (ulid_New w2) as [w3 id]. cbn [app].
  destruct (db_InsertEmail _ w3) as [w4 inserted].
  destruct inserted; cbn [negb].
  2: { right. cbn. repeat split; try done. lia. }
  pose proof (insertAttachments_quiet id (AttachmentNames req)
                (AttachmentSizes req) (AttachmentPaths req) 0 w4) as Hatt.
  unfold trace_of in Hatt. cbn [ID].
  destruct (Api.insertAttachments id (AttachmentNames req) (AttachmentSizes req) 0
              (AttachmentPaths req) w4) as [[w5 t5] u].
  cbn [fst snd] in Hatt. destruct Hatt as (Hb & He).
  unfold broadcasts in Hb. unfold inserted_emails in He.
  left. cbn [fst snd app].
  split; [done|]. split; [done|]. split; [done|].
  unfold broadcasts, inserted_emails. cbn [flat_map app].
  rewrite !flat_map_app, Hb, He. cbn [flat_map app].
  split; [done|]. eexists. split; reflexivity.
Qed.

(** X25. The store endpoint answers 200, 400, 404, 410 or 500.  It tells
    the hub of a new email exactly when it answers 200, and then once, for
    the address of the request, after one email was inserted whose
    identifier it returns; with any other answer the response reports
    failure and nothing is published. *)
Theorem store_endpoint_publishes_iff_stored :
  forall (address body : string) (w : W),
    let run := Api.StoreEmail address body w in
    let status := (value_of run).1 in
    (status = 200 \/ status = 400 \/ status = 404 \/ status = 410 \/ status = 500)
    /\ (status = 200 ->
        Success (value_of run).2 = true
        /\ broadcasts (trace_of run) = [address]
        /\ exists email, inserted_emails (trace_of run) = [email]
                         /\ EmailID (value_of run).2 = ID email)
    /\ (status <> 200 ->
        Success (value_of run).2 = false /\ broadcasts (trace_of run) = []).
Proof.
  intros address body w run status. subst status run.
  destruct (StoreEmail_handler_cases address body w)
    as [(Hs & Hok & _ & Hb & He)|(Hs & Hfail & Hb & _)].
  - split; [by left|]. split; [done|]. by intros Hne.
  - split; [right; exact Hs|]. split; [|done].
    intros H200. rewrite H200 in Hs. by destruct Hs as [|[|[|]]].
Qed.

(** X26. For an address the database does not know, knows as expired, or
    cannot look up, the store endpoint stores nothing: no email row, no
    attachment row and no publish; its answer is not 200. *)
Theorem store_endpoint_refuses_unknown_address :
  forall (address body : string) (w : W),
    (db_IsValidAddress address w).2 <> DbAnswer true false ->
    let run := Api.StoreEmail address body w in
    (value_of run).1 <> 200
    /\ inserted_emails (trace_of run) = []
    /\ inserted_attachments (trace_of run) = []
    /\ broadcasts (trace_of run) = [].
Proof.
  intros address body w Hbad run. subst run.
  destruct (StoreEmail_handler_cases address body w)
    as [(_ & _ & Hvalid & _)|(Hs & _ & Hb & Ha & He)]; [done|].
  split; [by destruct Hs as [->|[->|[->| ->]]]|]. by rewrite He, Ha, Hb.
Qed.

(** The email row the store endpoint builds. *)
Lemma StoreEmail_inserted_shape (address body : string) (w : W) :
  Forall (fun e =>
            ToAddress e = address
            /\ BodyPreview e = if 200 <? len (EBodyText e)
                               then GoStrings.slice (EBodyText e) 0 200 +:+ "..."
                               else EBodyText e)
         (inserted_emails (trace_of (Api.StoreEmail address body w))).
Proof.
  unfold Api.StoreEmail, Api.failure. cbv zeta.
  destruct (String.eqb address ""); [constructor|].
  unfold value_of, trace_of, bind, call, ret.
  destruct (db_IsValidAddress address w) as [w1 validity]. cbn [fst snd].
  destruct validity as [|valid expired]; [constructor|].
  destruct valid; cbn [negb]; [|constructor].
  destruct expired; [constructor|].
  destruct (json_decode_request body) as [req|]; [|constructor].
  unfold Api.NewEmail, bind, ask, call, emit, ret.
  destruct (time_Now "2006-01-02T15:04:05Z07:00" w1) as [w2 now].
  destruct (ulid_New w2) as [w3 id]. cbn [app].
  destruct (db_InsertEmail _ w3) as [w4 inserted].
  destruct inserted; cbn [negb].
  2: { cbn. by repeat constructor. }
  pose proof (insertAttachments_quiet id (AttachmentNames req)
                (AttachmentSizes req) (AttachmentPaths req) 0 w4) as Hatt.
  unfold trace_of in Hatt. cbn [ID].
  destruct (Api.insertAttachments id (AttachmentNames req) (AttachmentSizes req) 0
              (AttachmentPaths req) w4) as [[w5 t5] u].
  cbn [fst snd] in Hatt. destruct Hatt as (_ & He).
  unfold inserted_emails in He.
  cbn [fst snd app]. unfold inserted_emails. cbn [flat_map app].
  rewrite !flat_map_app, He. cbn. by repeat constructor.
Qed.

(** X28. Every email row the store endpoint hands to the database is
    addressed to the address of the request, and its preview is the whole
    text when the text has at most 200 bytes, and otherwise the first 200
    bytes of the text followed by three dots, 203 bytes in all. *)
Theorem store_endpoint_preview_bound :
  forall (address body : string) (w : W),
    Forall (fun e =>
              ToAddress e = address
              /\ len (BodyPreview e) <= 203
              /\ (len (EBodyText e) <= 200 -> BodyPreview e = EBodyText e)
              /\ (200 < len (EBodyText e) ->
                  BodyPreview e = GoStrings.slice (EBodyText e) 0 200 +:+ "..."
                  /\ len (BodyPreview e) = 203))
           (inserted_emails (trace_of (Api.StoreEmail address body w))).
Proof.
  intros address body w.
  eapply Forall_impl; [apply StoreEmail_inserted_shape|].
  intros e [Hto Hpreview]. cbv beta. split; [exact Hto|].
  assert (Hlong : 200 < len (EBodyText e) ->
                  len (GoStrings.slice (EBodyText e) 0 200 +:+ "...") = 203).
  { intros Hlen. unfold len at 1. rewrite StorageFacts.length_append.
    pose proof (SmtpProps.len_slice_0 (EBodyText e) 200 ltac:(lia)) as Hs.
    unfold len in Hs at 1. cbn [String.length]. lia. }
  rewrite Hpreview.
  destruct (Z.ltb_spec 200 (len (EBodyText e))) as [Hgt|Hle].
  - split; [rewrite Hlong; lia|]. split; [lia|]. intros _. split; [done|auto].
  - split; [lia|]. split; [done|lia].
Qed.

End WithEnv.

Lemma store_endpoint_refuses_unknown_address_witness :
  (db_IsValidAddress (Env := Scenario2.expiredEnv) "alice@tmp" tt).2 <> DbAnswer true false
  /\ (value_of (Api.StoreEmail (H := Scenario2.expiredEnv) "alice@tmp" "{}" tt)).1 = 410
  /\ inserted_emails (trace_of (Api.StoreEmail (H := Scenario2.expiredEnv)
                                  "alice@tmp" "{}" tt)) = [].
Proof.
  assert (Hbad : (db_IsValidAddress (Env := Scenario2.expiredEnv) "alice@tmp" tt).2
                 <> DbAnswer true false) by discriminate.
  split; [exact Hbad|]. split; [reflexivity|].
  exact (proj1 (proj2 (store_endpoint_refuses_unknown_address
                         (H := Scenario2.expiredEnv) "alice@tmp" "{}" tt Hbad))).
Defined.

Lemma store_endpoint_publishes_iff_stored_witness :
  (value_of (Api.StoreEmail (H := Scenario.upEnv) "alice@tmp" "{}" tt)).1 = 200
  /\ broadcasts (trace_of (Api.StoreEmail (H := Scenario.upEnv) "alice@tmp" "{}" tt))
     = ["alice@tmp"].
Proof.
  split; [reflexivity|].
  apply (proj1 (proj2 (store_endpoint_publishes_iff_stored (H := Scenario.upEnv)
                         "alice@tmp" "{}" tt))).
  reflexivity.
Defined.

End ApiFacts.

(** *** What a successful store request means *)

Module ClientFacts.
Import GoString Storage Observe MonadProps ApiFacts.

Section WithEnv.
Context {W : Type} `{Env W}.

(** One store request: the endpoint publishes at most once, for the
    address the router hands to it, and when the request is routed to the
    endpoint it has published when the request succeeds. *)
Lemma doStoreEmail_outcome (baseURL address : string) (req : StoreEmailRequest) (w : W) :
  let run := Client.doStoreEmail baseURL address req w in
  let routed := chi_route_store (storeURL baseURL address) in
  Forall (fun addr => routed = Some addr) (broadcasts (trace_of run))
  /\ (length (broadcasts (trace_of run)) <= 1)%nat
  /\ (forall resp, value_of run = Ok resp ->
        Success resp = true
        /\ (routed <> None -> length (broadcasts (trace_of run)) = 1%nat)).
Proof.
  unfold Client.doStoreEmail, storeURL. cbv zeta.
  destruct (json_Marshal_request req) as [jsonData|].
  2: { cbn. split; [constructor|]. split; [lia|done]. }
  destruct (negb (http_NewRequest_ok _)).
  { cbn. split; [constructor|]. split; [lia|done]. }
  unfold Client.http_Do_post_store, bind, emit, ask, ret, value_of, trace_of.
  destruct (net_request_arrives _ w) as [w1 arrives].
  destruct arrives; cbn [negb].
  2: { cbn. split; [constructor|]. split; [lia|done]. }
  destruct (chi_route_store _) as [a|].
  - pose proof (ApiFacts.StoreEmail_handler_cases a jsonData w1) as Hcases.
    cbv zeta in Hcases. unfold value_of, trace_of in Hcases.
    destruct (Api.StoreEmail a jsonData w1) as [[w2 t2] [status resp0]].
    cbn [fst snd] in Hcases.
    destruct (net_reply_arrives _ w2) as [w3 back].
    assert (Hcases' : (status = 200 /\ broadcasts t2 = [a])
                      \/ (status <> 200 /\ broadcasts t2 = [])).
    { destruct Hcases as [(Hs & _ & _ & Hb & _)|(Hs & _ & Hb & _)]; [by left|].
      right. split; [lia|done]. }
    clear Hcases.
    destruct back.
    2: { cbn [fst snd]. rewrite !broadcasts_app.
         destruct Hcases' as [[_ ->]|[_ ->]]; cbn;
           (split; [by repeat constructor|]); (split; [lia|done]). }
    cbn match. destruct (Z.eqb_spec status 200) as [H200|Hne]; cbn [negb].
    2: { cbn [fst snd]. rewrite !broadcasts_app.
         destruct Hcases' as [[? _]|[_ ->]]; [done|]. cbn.
         split; [constructor|]. split; [lia|done]. }
    destruct Hcases' as [[_ Hb]|[? _]]; [|done].
    destruct (json_decode_response _) as [storeResp|].
    2: { cbn [fst snd]. rewrite !broadcasts_app, Hb. cbn.
         split; [by repeat constructor|]. split; [lia|done]. }
    destruct (Success storeResp) eqn:Hok; cbn [negb fst snd];
      rewrite !broadcasts_app, Hb; cbn;
      (split; [by repeat constructor|]); (split; [lia|]); [|done].
    by intros resp [= <-].
  - destruct (chi_route_miss _) as [status answer].
    destruct (net_reply_arrives _ w1) as [w3 back].
    assert (Hquiet : forall (A : Type) (m : M W A) , trace_of (m w3) = [] ->
              broadcasts (([EvHttpPost
                (baseURL +:+ "/internal/v1/email/" +:+ address +:+ "/store") jsonData]
                ++ [] ++ [] ++ []) ++ (m w3).1.2) = []).
    { intros A m Hm. unfold trace_of in Hm. by rewrite Hm. }
    destruct back; cbn match.
    2: { cbn. split; [constructor|]. split; [lia|done]. }
    destruct (negb (status =? 200)).
    { cbn. split; [constructor|]. split; [lia|done]. }
    destruct (json_decode_response _) as [storeResp|].
    2: { cbn. split; [constructor|]. split; [lia|done]. }
    destruct (Success storeResp) eqn:Hok; cbn;
      (split; [constructor|]); (split; [lia|]); [|done].
    intros resp [= <-]. split; [done|]. by intros Hne.
Qed.

Lemma storeAttempts_outcome (left : nat) (baseURL address : string)
    (req : StoreEmailRequest) :
  forall (attempt : Z) (lastErr : string) (w : W),
    let run := Client.storeAttempts left attempt lastErr baseURL address req w in
    let routed := chi_route_store (storeURL baseURL address) in
    Forall (fun addr => routed = Some addr) (broadcasts (trace_of run))
    /\ (length (broadcasts (trace_of run)) <= left)%nat
    /\ (forall resp, value_of run = Ok resp ->
          Success resp = true
          /\ (routed <> None -> (1 <= length (broadcasts (trace_of run)))%nat)).
Proof.
  induction left as [|left' IH]; intros attempt lastErr w; cbv zeta;
    cbn [Client.storeAttempts].
  - cbn. split; [constructor|]. split; [lia|done].
  - rewrite !trace_bind, !value_bind, !broadcasts_app.
    assert (Hpause : broadcasts (trace_of
              ((if 0 <? attempt then emit (EvSleep (Client.backoff attempt))
                else ret tt) w)) = []) by (by destruct (0 <? attempt)).
    rewrite Hpause. cbn [app]. clear Hpause.
    remember (world_of ((if 0 <? attempt then emit (EvSleep (Client.backoff attempt))
                         else ret tt) w)) as w1 eqn:Hw1. clear Hw1.
    destruct (doStoreEmail_outcome baseURL address req w1) as (Hb & Hone & Hok).
    destruct (value_of (Client.doStoreEmail baseURL address req w1)) as [resp|e].
    + destruct (Hok resp eq_refl) as [Hsuccess Hrouted]. cbn [trace_of ret fst snd].
      rewrite app_nil_r.
      split; [exact Hb|]. split; [lia|].
      intros resp' [= <-]. split; [done|]. intros Hne. rewrite (Hrouted Hne). lia.
    + specialize (IH (attempt + 1) e
                     (world_of (Client.doStoreEmail baseURL address req w1))).
      cbv zeta in IH. destruct IH as (Hall & Hlen & Hfinal).
      split; [|split].
      * apply Forall_app. by split.
      * rewrite length_app. lia.
      * intros resp Hv. destruct (Hfinal resp Hv) as [Hsuccess Hmore].
        split; [done|]. intros Hne. specialize (Hmore Hne). rewrite length_app. lia.
Qed.

(** X29. A store with its retries causes at most three publishes, and each
    of them is for the address that the router of the API hands to the
    store endpoint for the client's URL (the address of the request
    whenever the router returns it as it was sent).  When the client
    reports success, the response it returns reports success, and if the
    URL is routed to the store endpoint the endpoint has published at
    least once: the client never reports a store that the endpoint did not
    announce. *)
Theorem client_store_ok_means_published :
  forall (baseURL address : string) (req : StoreEmailRequest) (w : W),
    let run := Client.StoreEmail baseURL address req w in
    let routed := chi_route_store (storeURL baseURL address) in
    Forall (fun addr => routed = Some addr) (broadcasts (trace_of run))
    /\ (length (broadcasts (trace_of run)) <= 3)%nat
    /\ (forall resp, value_of run = Ok resp ->
          Success resp = true
          /\ (routed <> None -> (1 <= length (broadcasts (trace_of run)))%nat)).
Proof.
  intros baseURL address req w. unfold Client.StoreEmail.
  apply (storeAttempts_outcome (Z.to_nat Client.maxRetries)).
Qed.

End WithEnv.

(** In a world where everything works the address sent is the address
    routed, the store succeeds at once and is published once. *)
Lemma client_store_ok_means_published_witness :
  chi_route_store (Env := Scenario.upEnv) (storeURL "http://api" "alice@tmp")
    = Some "alice@tmp"
  /\ broadcasts (trace_of (Client.StoreEmail (H := Scenario.upEnv) "http://api"
                             "alice@tmp" Scenario.blankRequest tt)) = ["alice@tmp"]
  /\ Forall (fun addr => chi_route_store (Env := Scenario.upEnv)
                           (storeURL "http://api" "alice@tmp") = Some addr)
            (broadcasts (trace_of (Client.StoreEmail (H := Scenario.upEnv) "http://api"
                                     "alice@tmp" Scenario.blankRequest tt))).
Proof.
  split; [reflexivity|]. split; [reflexivity|].
  exact (proj1 (client_store_ok_means_published (H := Scenario.upEnv) "http://api"
                  "alice@tmp" Scenario.blankRequest tt)).
Defined.

End ClientFacts.

(** *** Who a delivery is for *)

Module DeliveryFacts.
Import GoString Storage Smtp Observe MonadProps.

Section Events.
Context {W : Type} `{Env W}.

Lemma only_for_incl (baseURL : string) (l1 l2 : list string) (ev : Event) :
  incl l1 l2 -> only_for baseURL l1 ev -> only_for baseURL l2 ev.
Proof.
  intros Hincl. destruct ev; cbn; try done.
  - intros (a & Ha & ->). exists a. split; [by apply Hincl|done].
  - intros (a & Ha & Hroute). exists a. split; [by apply Hincl|done].
Qed.

Lemma silent_only_for (baseURL : string) (l : list string) (ev : Event) :
  silent_event ev -> only_for baseURL l ev.
Proof. by destruct ev. Qed.

Lemma check_only_for (baseURL : string) (l : list string) (ev : Event) :
  check_event ev -> only_for baseURL l ev.
Proof. by destruct ev. Qed.

End Events.

Section WithEnv.
Context {W : Type} `{Env W}.

Lemma emits_only_weaken {A : Type} (P Q : Event -> Prop) (m : M W A) :
  (forall ev, P ev -> Q ev) -> emits_only P m -> emits_only Q m.
Proof. intros HPQ Hm w. eapply Forall_impl; [apply Hm|exact HPQ]. Qed.

(** Walks through a computation made of binds, calls and case
    distinctions, leaving the events to be checked. *)
Ltac walk :=
  repeat first
    [ apply emits_only_ret
    | apply emits_only_ask
    | apply emits_only_emit
    | apply emits_only_call
    | apply emits_only_bind; [|intros ?]
    | match goal with
      | |- emits_only _ (match ?x with _ => _ end) => destruct x
      end ].

Lemma writeThenRename_silent (filePath data what : string) :
  emits_only (W := W) silent_event (writeThenRename filePath data what).
Proof. unfold writeThenRename. walk; exact I. Qed.

Lemma SaveEmail_silent (basePath toAddress rawEmail : string) :
  emits_only (W := W) silent_event (SaveEmail basePath toAddress rawEmail).
Proof.
  unfold SaveEmail, generateFilename. walk; try exact I.
  all: apply writeThenRename_silent.
Qed.

Lemma SaveAttachment_silent (basePath emailFilename attachmentName data : string) :
  emits_only (W := W) silent_event
    (SaveAttachment basePath emailFilename attachmentName data).
Proof.
  unfold SaveAttachment. walk; try exact I. all: apply writeThenRename_silent.
Qed.

Lemma saveParts_silent (cfg : Config) (emailFilename : string)
    (defaultName : Part -> string) (parts : list Part) (acc : Saved) :
  emits_only (W := W) silent_event (saveParts cfg emailFilename defaultName parts acc).
Proof.
  revert acc. induction parts as [|att rest IH]; intros acc; cbn [saveParts].
  - apply emits_only_ret.
  - apply emits_only_bind; [apply SaveAttachment_silent|]. intros [path|e]; apply IH.
Qed.

Lemma insertAttachments_silent (emailID : string) (names : list string)
    (sizes : list Z) (i : nat) (paths : list string) :
  emits_only (W := W) silent_event (Api.insertAttachments emailID names sizes i paths).
Proof.
  revert i. induction paths as [|path rest IH]; intros i; cbn [Api.insertAttachments].
  - apply emits_only_ret.
  - unfold Api.NewAttachment. walk; try exact I. apply IH.
Qed.

Lemma Api_StoreEmail_for (baseURL address routed body : string) :
  chi_route_store (storeURL baseURL address) = Some routed ->
  emits_only (W := W) (only_for baseURL [address]) (Api.StoreEmail routed body).
Proof.
  intros Hroute.
  unfold Api.StoreEmail, Api.failure, Api.NewEmail. walk; try exact I.
  - eapply emits_only_weaken; [apply silent_only_for|apply insertAttachments_silent].
  - exists address. split; [by left|exact Hroute].
Qed.

Lemma doStoreEmail_for (baseURL address : string) (req : StoreEmailRequest) :
  emits_only (W := W) (only_for baseURL [address])
    (Client.doStoreEmail baseURL address req).
Proof.
  unfold Client.doStoreEmail, Client.http_Do_post_store.
  destruct (json_Marshal_request req) as [jsonData|]; [|apply emits_only_ret].
  destruct (negb (http_NewRequest_ok _)); [apply emits_only_ret|].
  apply emits_only_bind; [|intros reply; walk].
  apply emits_only_bind.
  { apply emits_only_emit. exists address. split; [by left|reflexivity]. }
  intros _. apply emits_only_bind; [apply emits_only_ask|]. intros arrives.
  destruct arrives; cbn [negb]; [|apply emits_only_ret].
  apply emits_only_bind; [|intros [status answer]; walk].
  destruct (chi_route_store _) as [routed|] eqn:Hroute; [|apply emits_only_ret].
  apply emits_only_bind; [by apply Api_StoreEmail_for|].
  intros [status resp]. apply emits_only_ret.
Qed.

Lemma storeAttempts_for (left : nat) (attempt : Z) (lastErr baseURL address : string)
    (req : StoreEmailRequest) :
  emits_only (W := W) (only_for baseURL [address])
    (Client.storeAttempts left attempt lastErr baseURL address req).
Proof.
  revert attempt lastErr.
  induction left as [|left' IH]; intros attempt lastErr; cbn [Client.storeAttempts].
  - apply emits_only_ret.
  - apply emits_only_bind; [destruct (0 <? attempt); walk; exact I|]. intros _.
    apply emits_only_bind; [apply doStoreEmail_for|]. intros [resp|e]; [walk|apply IH].
Qed.

Lemma processEmail_for (cfg : Config) (s : Session) (toAddress rawEmail : string) :
  emits_only (W := W) (only_for (APIServiceURL cfg) [toAddress])
    (processEmail cfg s toAddress rawEmail).
Proof.
  unfold processEmail.
  apply emits_only_bind.
  { eapply emits_only_weaken; [apply silent_only_for|apply SaveEmail_silent]. }
  intros [filePath|e]; [|apply emits_only_ret]. cbv zeta.
  apply emits_only_bind.
  { eapply emits_only_weaken; [apply silent_only_for|apply saveParts_silent]. }
  intros atts1. apply emits_only_bind.
  { eapply emits_only_weaken; [apply silent_only_for|apply saveParts_silent]. }
  intros atts2. apply emits_only_bind; [apply emits_only_ask|]. intros now.
  apply emits_only_bind; [apply storeAttempts_for|]. intros _. apply emits_only_ret.
Qed.

Lemma deliverAll_for (cfg : Config) (s : Session) (rawEmail : string)
    (rcpts : list recipientInfo) :
  emits_only (W := W)
    (only_for (APIServiceURL cfg) (map address (within_quota (len rawEmail) rcpts)))
    (deliverAll cfg s rawEmail rcpts).
Proof.
  induction rcpts as [|rcpt rest IH]; cbn [deliverAll].
  - apply emits_only_ret.
  - unfold within_quota in *. cbn [List.filter]. unfold deliverOne.
    destruct (overQuota rcpt (len rawEmail)); cbn [negb map].
    + apply emits_only_bind; [apply emits_only_ret|]. intros _. exact IH.
    + apply emits_only_bind.
      * apply emits_only_bind; [|intros _; apply emits_only_ret].
        eapply emits_only_weaken; [|apply processEmail_for].
        intros ev. apply only_for_incl. intros a [<-|[]]. by left.
      * intros _. eapply emits_only_weaken; [|exact IH].
        intros ev. apply only_for_incl. intros a Ha. by right.
Qed.

Lemma receive_accepts_what_it_read (cfg : Config) (s : Session) (r : Reader) (w : W)
    (rawEmail : string) :
  value_of (receive cfg s r w) = Accepted rawEmail ->
  rawEmail = (readAllLimited r (MaxEmailSize cfg)).1.
Proof.
  unfold receive. destruct (recipients s) as [|r0 rs]; [done|].
  destruct (readAllLimited r (MaxEmailSize cfg)) as [raw failed].
  unfold bind, emit, ret, value_of. cbn [fst snd].
  destruct failed; [done|].
  destruct (MaxEmailSize cfg <=? len raw); [done|].
  destruct (ValidateSPF cfg || ValidateDKIM cfg || ValidateDMARC cfg);
    [|by intros [= <-]].
  destruct (validateEmailAuth cfg s raw w) as [[w1 t1] a].
  destruct (shouldRejectEmail cfg a); [done|]. by intros [= <-].
Qed.

(** X27. Whatever the data phase does, every store request it sends goes to
    the store URL of an accepted recipient that the quota test, made with
    the size of the bytes read, does not skip, and every publish it causes
    is for the address that the router of the API hands to the store
    endpoint for such a URL: nothing is sent for a recipient over its quota
    or for an address that was not accepted, and nothing is published but
    through the store request of a recipient that is delivered to. *)
Theorem data_delivers_only_within_quota :
  forall (cfg : Config) (s : Session) (r : Reader) (w : W),
    let rawEmail := (readAllLimited r (MaxEmailSize cfg)).1 in
    Forall (only_for (APIServiceURL cfg)
              (map address (within_quota (len rawEmail) (recipients s))))
           (trace_of (Data cfg s r w)).
Proof.
  intros cfg s r w rawEmail. unfold Data. rewrite trace_bind.
  apply Forall_app. split.
  { eapply Forall_impl; [apply SmtpFacts.receive_checks|apply check_only_for]. }
  pose proof (receive_accepts_what_it_read cfg s r w) as Hraw.
  destruct (value_of (receive cfg s r w)) as [e|raw].
  { constructor. }
  rewrite (Hraw raw eq_refl). rewrite trace_bind. apply Forall_app. split.
  - apply deliverAll_for.
  - constructor.
Qed.

End WithEnv.

End DeliveryFacts.
